(** * gas-lib: a shallow embedding of the helper functions and their contracts

    The TypeScript helpers of the library are embedded as Rocq functions.
    JavaScript strings are sequences of UTF-16 code units, arrays are lists
    kept in a store and addressed by reference, a [throw] is a [Throw]
    completion, and what the hosting platform provides (the digest
    primitive, the bound spreadsheet, the console, the limit of the engine
    on the length of a string) is a parameter or explicit state. *)

From Stdlib Require Import ZArith List Lia Ascii String.
From stdpp Require Import base list gmap.

Open Scope Z_scope.

(** ** JavaScript strings *)

Definition code_unit := N.
Abbreviation jsstring := (list code_unit).

(** A string literal of the source, one code unit per character. *)
Fixpoint lit (s : string) : jsstring :=
  match s with
  | EmptyString => []
  | String c rest => N_of_ascii c :: lit rest
  end.

(** ** Completions: a call returns normally or throws *)

Inductive exn :=
  | Error (message : jsstring)
  | RangeError
  | TypeError.

Inductive completion (A : Type) :=
  | Normal (a : A)
  | Throw (e : exn).
Arguments Normal {A} a.
Arguments Throw {A} e.

#[global] Instance completion_ret : MRet completion := λ A a, Normal a.
#[global] Instance completion_bind : MBind completion := λ A B f c,
  match c with
  | Normal a => f a
  | Throw e => Throw e
  end.

(** ** String.prototype.repeat, concatenation and String.prototype.slice *)

(** An engine puts a limit on the length of a string and throws a
    RangeError (invalid string length) where a string would pass it. The
    limit is the engine's, and is taken as given: [max_string_length]. *)

(** [s.repeat(count)]: a negative count is a RangeError. No repetition,
    and any repetition of the empty string, is the empty string; a result
    that would be longer than the limit is a RangeError. *)
Definition String_repeat (max_string_length : Z) (s : jsstring) (count : Z)
  : completion jsstring :=
  if count <? 0 then Throw RangeError
  else if (count =? 0) || (Z.of_nat (length s) =? 0) then Normal []
  else if max_string_length <? Z.of_nat (length s) * count
  then Throw RangeError
  else Normal (concat (replicate (Z.to_nat count) s)).

(** The concatenation of two strings, as a template literal joins its
    parts: with an empty operand it is the other operand; a result that
    would be longer than the limit is a RangeError. *)
Definition String_concat (max_string_length : Z) (a b : jsstring)
  : completion jsstring :=
  if Z.of_nat (length a) =? 0 then Normal b
  else if Z.of_nat (length b) =? 0 then Normal a
  else if max_string_length <? Z.of_nat (length a) + Z.of_nat (length b)
  then Throw RangeError
  else Normal (a ++ b).

(** [s.slice(start)] with the end left out: a negative start counts from
    the end of the string, and both are clamped to the string. *)
Definition String_slice (s : jsstring) (start : Z) : jsstring :=
  let len := Z.of_nat (length s) in
  let from := if start <? 0 then Z.max (len + start) 0 else Z.min start len in
  drop (Z.to_nat from) s.

(** ** Number.prototype.toString(radix) on integral values

    The digits of the value in the radix (from 2 to 36), the most
    significant first, after a minus sign for a negative value. *)

Definition digit_unit (d : Z) : code_unit :=
  if d <? 10 then Z.to_N (48 + d) else Z.to_N (87 + d).

Fixpoint digits_of (fuel : nat) (radix n : Z) (acc : jsstring) : jsstring :=
  let acc' := digit_unit (n mod radix) :: acc in
  match fuel with
  | O => acc'
  | S fuel' =>
      if n / radix =? 0 then acc' else digits_of fuel' radix (n / radix) acc'
  end.

Definition Number_toString (x : Z) (radix : Z) : jsstring :=
  if x <? 0
  then lit "-" ++ digits_of (Z.to_nat (Z.log2 (- x))) radix (- x) []
  else digits_of (Z.to_nat (Z.log2 x)) radix x [].

(** ** Formatting helpers *)

Section Padding.
(** The engine's limit on the length of a string. *)
Variable max_string_length : Z.
(** The numbers a caller passes as [v] are doubles; their [toString()]
    is the platform's and is taken as given. *)
Variable number : Type.
Variable number_toString : number -> jsstring.

Inductive string_or_number :=
  | IsString (s : jsstring)
  | IsNumber (n : number).

Definition toZeroPadding (v : string_or_number) (digit : Z)
  : completion jsstring :=
  let abs := if digit <? 0 then - digit else digit in
  match v with
  | IsNumber n =>
      zeros ← String_repeat max_string_length (lit "0") abs;
      padded ← String_concat max_string_length zeros (number_toString n);
      mret (String_slice padded (- abs))
  | IsString s =>
      zeros ← String_repeat max_string_length (lit "0") abs;
      padded ← String_concat max_string_length zeros s;
      mret (String_slice padded (- abs))
  end.

Definition toWordPadding (v : string_or_number) (digit : Z) (word : jsstring)
  : completion jsstring :=
  let abs := if digit <? 0 then - digit else digit in
  match v with
  | IsNumber n =>
      words ← String_repeat max_string_length word abs;
      padded ← String_concat max_string_length words (number_toString n);
      mret (String_slice padded (- abs))
  | IsString s =>
      words ← String_repeat max_string_length word abs;
      padded ← String_concat max_string_length words s;
      mret (String_slice padded (- abs))
  end.
End Padding.

Arguments IsString {number} s.
Arguments IsNumber {number} n.
Arguments toZeroPadding max_string_length {number} number_toString v digit.
Arguments toWordPadding max_string_length {number} number_toString v digit
  word.

(** The integral numbers that a double holds exactly and prints digit by
    digit: the safe integers, below [2 ^ 53] in absolute value. Their
    [toString()] is the decimal rendering. *)
Record safe_integer := SafeInteger {
  integer_value : Z;
  integer_safe : (Z.abs integer_value <? 2 ^ 53) = true
}.

Abbreviation safe n := (SafeInteger n eq_refl).

Definition decimal (n : safe_integer) : jsstring :=
  Number_toString (integer_value n) 10.

(** The limit of the V8 engine on a 64-bit platform, for the examples. *)
Definition V8_max_string_length : Z := 2 ^ 29 - 24.

(** ** State: a call may also change the store or write to the console *)

Definition M (S A : Type) : Type := S -> completion A * S.

#[global] Instance M_ret {S} : MRet (M S) := λ A a s, (Normal a, s).
#[global] Instance M_bind {S} : MBind (M S) := λ A B f m s,
  match m s with
  | (Normal a, s') => f a s'
  | (Throw e, s') => (Throw e, s')
  end.

(** Objects and arrays are handled by reference. *)
Abbreviation ref := positive.

(** ** TypeGuard *)

Module TypeGuard.
(** A nullable value is an [option]; [null] is [None]. *)
Definition isNull {A : Type} (v : option A) : bool :=
  match v with
  | None => true
  | Some _ => false
  end.
End TypeGuard.

(** ** SpreadsheetLib *)

Module SpreadsheetLib.
Section WithSheet.
(** The bound spreadsheet handle: its lookup by name and its identifier. *)
Variable Sheet : Type.

Record Spreadsheet := {
  getSheetByName : jsstring -> option Sheet;
  getId : jsstring
}.

(** The object literal [{ sheet }]. *)
Record SheetRef := { sheet : option Sheet }.

Definition quote : jsstring := [34%N].

Definition openSheet (ss : Spreadsheet) (sheetName : jsstring)
  : completion SheetRef :=
  let sheet := getSheetByName ss sheetName in
  if TypeGuard.isNull sheet then
    Throw (Error (lit "sheet " ++ quote ++ sheetName ++ quote
                  ++ [32; 0x306F; 32]%N ++ lit "Spreadsheet " ++ getId ss
                  ++ [32; 0x306B; 0x5B58; 0x5728; 0x3057; 0x307E; 0x305B;
                      0x3093]%N))
  else Normal {| sheet := sheet |}.
End WithSheet.

Arguments getSheetByName {Sheet} _ _.
Arguments getId {Sheet} _.
Arguments sheet {Sheet} _.
Arguments openSheet {Sheet} ss sheetName.
End SpreadsheetLib.
Import SpreadsheetLib.

(** ** Pipe *)

Section Pipe.
Variable T : Type.

(** The store holds the field [v] of every Pipe object; the console
    collects what [console.log] receives. *)
Record pipe_world := {
  pipes : gmap ref T;
  pipe_console : list T
}.

Definition pipe_field (this : ref) : M pipe_world T := λ w,
  match pipes w !! this with
  | Some v => (Normal v, w)
  | None => (Throw TypeError, w)
  end.

Definition pipe_assign (this : ref) (v : T) : M pipe_world unit := λ w,
  (Normal tt, {| pipes := <[this := v]> (pipes w);
                 pipe_console := pipe_console w |}).

Definition pipe_console_log (v : T) : M pipe_world unit := λ w,
  (Normal tt, {| pipes := pipes w; pipe_console := pipe_console w ++ [v] |}).

(** [new Pipe(v)] *)
Definition Pipe_new (v : T) : M pipe_world ref := λ w,
  let this := fresh (dom (pipes w)) in
  (_ ← pipe_assign this v; mret this) w.

Definition Pipe_log (this : ref) : M pipe_world ref :=
  v ← pipe_field this;
  _ ← pipe_console_log v;
  mret this.

Definition Pipe_to (fc : T -> T) (this : ref) : M pipe_world ref :=
  v ← pipe_field this;
  _ ← pipe_assign this (fc v);
  mret this.

Definition Pipe_exit (this : ref) : M pipe_world T :=
  pipe_field this.

(** [p.to(f1). ... .to(fn)] *)
Definition Pipe_chain (fcs : list (T -> T)) (p : M pipe_world ref)
  : M pipe_world ref :=
  fold_left (λ m fc, this ← m; Pipe_to fc this) fcs p.
End Pipe.

Arguments pipes {T} _.
Arguments pipe_console {T} _.
Arguments Pipe_new {T} v _.
Arguments Pipe_log {T} this _.
Arguments Pipe_to {T} fc this _.
Arguments Pipe_exit {T} this _.
Arguments Pipe_chain {T} fcs p _.

(** ** Digest encoder *)

Section DigestEncoder.
(** [Utilities.computeDigest(Utilities.DigestAlgorithm.MD5, text,
    Utilities.Charset.UTF_8)]: the platform's digest primitive, which
    returns the digest as signed bytes. *)
Variable computeDigest : jsstring -> list Z.

Definition createMD5HashKey (text : jsstring) : jsstring :=
  let md5_byte := computeDigest text in
  fold_left
    (λ hash_key byte,
       hash_key ++ (if byte <? 0 then Number_toString (byte + 256) 16
                    else Number_toString byte 16))
    md5_byte [].
End DigestEncoder.

(** ** ArrayActions *)

Module ArrayActions.
Section WithElements.
Variable T : Type.

(** What an array holds at an index, or what a read outside it gives.
    Arrays are dense: every index below the length holds an element. *)
Inductive element :=
  | Value (t : T)
  | Undefined.

(** The store holds the contents of every array; the console collects
    the numbers [console.log] receives. *)
Record array_world := {
  arrays : gmap ref (list element);
  array_console : list Z
}.

(** [a[i]] and [a.splice(start, deleteCount, ...items)] on the contents. *)
Definition Array_get (a : list element) (i : Z) : element :=
  if i <? 0 then Undefined else default Undefined (a !! Z.to_nat i).

Definition Array_splice (a : list element) (start deleteCount : Z)
    (items : list element) : list element :=
  let len := Z.of_nat (length a) in
  let actualStart :=
    if start <? 0 then Z.max (len + start) 0 else Z.min start len in
  let actualDeleteCount := Z.min (Z.max deleteCount 0) (len - actualStart) in
  take (Z.to_nat actualStart) a ++ items
    ++ drop (Z.to_nat (actualStart + actualDeleteCount)) a.

(** The same through a reference. *)
Definition contents (array : ref) : M array_world (list element) := λ w,
  match arrays w !! array with
  | Some a => (Normal a, w)
  | None => (Throw TypeError, w)
  end.

Definition index_get (array : ref) (i : Z) : M array_world element :=
  a ← contents array; mret (Array_get a i).

Definition array_length (array : ref) : M array_world Z :=
  a ← contents array; mret (Z.of_nat (length a)).

Definition update (array : ref) (a : list element) : M array_world unit :=
  λ w, (Normal tt,
        {| arrays := <[array := a]> (arrays w);
           array_console := array_console w |}).

Definition splice (array : ref) (start deleteCount : Z)
    (items : list element) : M array_world unit :=
  a ← contents array;
  update array (Array_splice a start deleteCount items).

Definition array_console_log (n : Z) : M array_world unit := λ w,
  (Normal tt,
   {| arrays := arrays w; array_console := array_console w ++ [n] |}).

Definition swapUp (array : ref) (index : Z) : M array_world ref :=
  if index <=? 0 then mret array
  else
    x ← index_get array index;
    y ← index_get array (index - 1);
    _ ← splice array (index - 1) 2 [x; y];
    mret array.

Definition swapDown (array : ref) (index : Z) : M array_world ref :=
  if index <? 0 then mret array
  else
    len ← array_length array;
    if len - 1 <=? index then mret array
    else
      n ← array_length array;
      _ ← array_console_log n;
      x ← index_get array (index + 1);
      y ← index_get array index;
      _ ← splice array index 2 [x; y];
      mret array.
End WithElements.

Arguments Value {T} t.
Arguments Undefined {T}.
Arguments arrays {T} _.
Arguments array_console {T} _.
Arguments Array_get {T} a i.
Arguments Array_splice {T} a start deleteCount items.
Arguments swapUp {T} array index _.
Arguments swapDown {T} array index _.
End ArrayActions.
Import ArrayActions.

(** ** The platform's digest primitive *)

(** Modelled from the spec: the MD5 algorithm (RFC 1321) behind the digest
    primitive, which is the hosting platform's and not this repository's. *)
Module MD5.
Definition add32 (a b : Z) : Z := (a + b) mod 2 ^ 32.
Definition not32 (a : Z) : Z := Z.lxor a (2 ^ 32 - 1).
Definition rotl32 (x c : Z) : Z :=
  Z.lor (Z.shiftl x c mod 2 ^ 32) (Z.shiftr x (32 - c)).

(** [floor (2^32 * abs (sin (i + 1)))] for [i] from 0 to 63. *)
Definition K : list Z :=
  [0xd76aa478; 0xe8c7b756; 0x242070db; 0xc1bdceee;
   0xf57c0faf; 0x4787c62a; 0xa8304613; 0xfd469501;
   0x698098d8; 0x8b44f7af; 0xffff5bb1; 0x895cd7be;
   0x6b901122; 0xfd987193; 0xa679438e; 0x49b40821;
   0xf61e2562; 0xc040b340; 0x265e5a51; 0xe9b6c7aa;
   0xd62f105d; 0x02441453; 0xd8a1e681; 0xe7d3fbc8;
   0x21e1cde6; 0xc33707d6; 0xf4d50d87; 0x455a14ed;
   0xa9e3e905; 0xfcefa3f8; 0x676f02d9; 0x8d2a4c8a;
   0xfffa3942; 0x8771f681; 0x6d9d6122; 0xfde5380c;
   0xa4beea44; 0x4bdecfa9; 0xf6bb4b60; 0xbebfbc70;
   0x289b7ec6; 0xeaa127fa; 0xd4ef3085; 0x04881d05;
   0xd9d4d039; 0xe6db99e5; 0x1fa27cf8; 0xc4ac5665;
   0xf4292244; 0x432aff97; 0xab9423a7; 0xfc93a039;
   0x655b59c3; 0x8f0ccc92; 0xffeff47d; 0x85845dd1;
   0x6fa87e4f; 0xfe2ce6e0; 0xa3014314; 0x4e0811a1;
   0xf7537e82; 0xbd3af235; 0x2ad7d2bb; 0xeb86d391].

Definition shifts : list Z :=
  [7; 12; 17; 22; 7; 12; 17; 22; 7; 12; 17; 22; 7; 12; 17; 22;
   5; 9; 14; 20; 5; 9; 14; 20; 5; 9; 14; 20; 5; 9; 14; 20;
   4; 11; 16; 23; 4; 11; 16; 23; 4; 11; 16; 23; 4; 11; 16; 23;
   6; 10; 15; 21; 6; 10; 15; 21; 6; 10; 15; 21; 6; 10; 15; 21].

Definition at_index (l : list Z) (i : Z) : Z := default 0 (l !! Z.to_nat i).

(** [n] bytes of [x], least significant first. *)
Fixpoint le_bytes (n : nat) (x : Z) : list Z :=
  match n with
  | O => []
  | S n' => x mod 256 :: le_bytes n' (x / 256)
  end.

Definition padded (msg : list Z) : list Z :=
  let len := Z.of_nat (length msg) in
  msg ++ [0x80] ++ replicate (Z.to_nat ((55 - len) mod 64)) 0
      ++ le_bytes 8 (8 * len mod 2 ^ 64).

Definition le_word (bytes : list Z) : Z :=
  fold_right (λ b acc, b + 256 * acc) 0 bytes.

(** The first [n] groups of [size] bytes. *)
Fixpoint groups (n : nat) (size : nat) (bytes : list Z) : list (list Z) :=
  match n with
  | O => []
  | S n' => take size bytes :: groups n' size (drop size bytes)
  end.

Definition state : Type := Z * Z * Z * Z.

Definition step (m : list Z) (st : state) (i : Z) : state :=
  let '(a, b, c, d) := st in
  let '(f, g) :=
    if i <? 16 then (Z.lor (Z.land b c) (Z.land (not32 b) d), i)
    else if i <? 32 then
      (Z.lor (Z.land d b) (Z.land (not32 d) c), (5 * i + 1) mod 16)
    else if i <? 48 then (Z.lxor b (Z.lxor c d), (3 * i + 5) mod 16)
    else (Z.lxor c (Z.lor b (not32 d)), (7 * i) mod 16) in
  let f' := add32 (add32 (add32 f a) (at_index K i)) (at_index m g) in
  (d, add32 b (rotl32 f' (at_index shifts i)), b, c).

Definition block (st : state) (chunk : list Z) : state :=
  let m := le_word <$> groups 16 4 chunk in
  let '(a, b, c, d) := st in
  let '(a', b', c', d') := fold_left (step m) (seqZ 0 64) st in
  (add32 a a', add32 b b', add32 c c', add32 d d').

Definition digest (msg : list Z) : list Z :=
  let bytes := padded msg in
  let '(a, b, c, d) :=
    fold_left block (groups (length bytes / 64) 64 bytes)
      (0x67452301, 0xefcdab89, 0x98badcfe, 0x10325476) in
  le_bytes 4 a ++ le_bytes 4 b ++ le_bytes 4 c ++ le_bytes 4 d.
End MD5.

(** The UTF-8 encoding of a string; a surrogate pair is one code point, a
    lone surrogate is encoded as a question mark. *)
Definition utf8_point (p : Z) : list Z :=
  if p <? 0x80 then [p]
  else if p <? 0x800 then
    [Z.lor 0xC0 (Z.shiftr p 6); Z.lor 0x80 (Z.land p 0x3F)]
  else if p <? 0x10000 then
    [Z.lor 0xE0 (Z.shiftr p 12); Z.lor 0x80 (Z.land (Z.shiftr p 6) 0x3F);
     Z.lor 0x80 (Z.land p 0x3F)]
  else
    [Z.lor 0xF0 (Z.shiftr p 18); Z.lor 0x80 (Z.land (Z.shiftr p 12) 0x3F);
     Z.lor 0x80 (Z.land (Z.shiftr p 6) 0x3F); Z.lor 0x80 (Z.land p 0x3F)].

Fixpoint utf8 (s : jsstring) : list Z :=
  match s with
  | [] => []
  | u :: rest =>
      let u := Z.of_N u in
      if (0xD800 <=? u) && (u <? 0xDC00) then
        match rest with
        | lo :: rest' =>
            let lo := Z.of_N lo in
            if (0xDC00 <=? lo) && (lo <? 0xE000) then
              utf8_point (0x10000 + (u - 0xD800) * 0x400 + (lo - 0xDC00))
                ++ utf8 rest'
            else 0x3F :: utf8 rest
        | [] => [0x3F]
        end
      else if (0xDC00 <=? u) && (u <? 0xE000) then 0x3F :: utf8 rest
      else utf8_point u ++ utf8 rest
  end.

Definition signed_byte (b : Z) : Z := if 128 <=? b then b - 256 else b.

(** Modelled from the spec: the digest primitive, which takes the
    algorithm MD5, the text and the character encoding UTF-8, and returns
    the 16 bytes of the digest as signed bytes. *)
Definition computeDigest_MD5_UTF_8 (text : jsstring) : list Z :=
  signed_byte <$> MD5.digest (utf8 text).

(** Runs the reads and writes of a method body on a store in which the
    contents of the array are known by [Ha]. *)
Ltac run_on Ha :=
  unfold index_get, array_length, splice, contents, update,
    array_console_log;
  unfold mbind, M_bind, mret, M_ret;
  repeat (progress (cbn beta iota zeta delta [arrays array_console];
                    rewrite ?Ha)).

(** * Specifications *)

(** ** What the contracts speak of *)

(** The text a padding helper works on: [v] itself, or its rendering. *)
Definition rendering {number : Type} (number_toString : number -> jsstring)
    (v : string_or_number number) : jsstring :=
  match v with
  | IsString s => s
  | IsNumber n => number_toString n
  end.

(** The last [n] code units of a string. *)
Definition last_units (n : nat) (s : jsstring) : jsstring :=
  drop (length s - n) s.

(** The unsigned value of a signed byte, and its hexadecimal rendering as
    the contract words it: lowercase, one digit below sixteen and two from
    there on, never padded. *)
Definition unsigned_byte (b : Z) : Z := if b <? 0 then b + 256 else b.

Definition hex_digits : jsstring := lit "0123456789abcdef".

Definition hex_digit (d : Z) : code_unit :=
  default 48%N (hex_digits !! Z.to_nat d).

Definition hex_unpadded (v : Z) : jsstring :=
  if v <? 16 then [hex_digit v] else [hex_digit (v / 16); hex_digit (v mod 16)].


(** The standard rendering of a byte value: two lowercase hexadecimal
    digits. *)
Definition hex_padded (v : Z) : jsstring :=
  [hex_digit (v / 16); hex_digit (v mod 16)].

(** A rendering without its leading zero digit, when it has one. *)
Definition strip_leading_zero (s : jsstring) : jsstring :=
  match s with
  | c :: rest => if (c =? 48)%N then rest else s
  | [] => s
  end.

(** The values a pipe holds in turn while the functions are applied. *)
Fixpoint held_values {T : Type} (fcs : list (T -> T)) (x : T) : list T :=
  match fcs with
  | [] => []
  | fc :: fcs' => fc x :: held_values fcs' (fc x)
  end.

(** [p.to(f1).log(). ... .to(fn).log()] *)
Definition Pipe_chain_logged {T : Type} (fcs : list (T -> T))
    (p : M (pipe_world T) ref) : M (pipe_world T) ref :=
  fold_left (λ m fc, this ← m; this' ← Pipe_to fc this; Pipe_log this') fcs p.

(** ** Strings *)

Lemma concat_replicate_unit (c : code_unit) (n : nat) :
  concat (replicate n [c]) = replicate n c.
Proof. induction n as [| n IH]; simpl; [reflexivity | now rewrite IH]. Qed.

Lemma concat_replicate_nil (n : nat) :
  concat (replicate n ([] : jsstring)) = [].
Proof. induction n as [| n IH]; simpl; [reflexivity | exact IH]. Qed.

Lemma length_concat_replicate (word : jsstring) (n : nat) :
  length (concat (replicate n word)) = (n * length word)%nat.
Proof.
  induction n as [| n IH]; simpl; [reflexivity |].
  rewrite length_app, IH. reflexivity.
Qed.

(** What [repeat] returns when it returns, and when it does. *)
Lemma String_repeat_Normal (max : Z) (s result : jsstring) (n : Z) :
  String_repeat max s n = Normal result ->
  result = concat (replicate (Z.to_nat n) s).
Proof.
  unfold String_repeat.
  destruct (Z.ltb_spec n 0); [discriminate |].
  destruct (Z.eqb_spec n 0) as [-> | Hn]; [now intros [= <-] |].
  destruct (Z.eqb_spec (Z.of_nat (length s)) 0) as [Hs | Hs].
  - destruct s; [| simpl in Hs; lia].
    intros [= <-]. now rewrite concat_replicate_nil.
  - simpl. destruct (max <? _); [discriminate | now intros [= <-]].
Qed.

Lemma String_repeat_fits (max : Z) (s : jsstring) (n : Z) :
  0 <= n ->
  concat (replicate (Z.to_nat n) s) = []
  ∨ Z.of_nat (length (concat (replicate (Z.to_nat n) s))) <= max ->
  String_repeat max s n = Normal (concat (replicate (Z.to_nat n) s)).
Proof.
  intros Hn Hfits. unfold String_repeat.
  destruct (Z.ltb_spec n 0); [lia |].
  destruct (Z.eqb_spec n 0) as [-> | Hn0]; [reflexivity |].
  destruct (Z.eqb_spec (Z.of_nat (length s)) 0) as [Hs | Hs].
  - destruct s; [| simpl in Hs; lia]. now rewrite concat_replicate_nil.
  - simpl. rewrite length_concat_replicate in Hfits.
    destruct Hfits as [Hempty | Hfits].
    + apply (f_equal length) in Hempty.
      rewrite length_concat_replicate in Hempty. simpl in Hempty. nia.
    + destruct (Z.ltb_spec max (Z.of_nat (length s) * n)); [nia | reflexivity].
Qed.

Lemma String_repeat_over (max : Z) (s : jsstring) (n : Z) :
  0 <= n ->
  concat (replicate (Z.to_nat n) s) ≠ [] ->
  max < Z.of_nat (length (concat (replicate (Z.to_nat n) s))) ->
  String_repeat max s n = Throw RangeError.
Proof.
  intros Hn Hpad Hover. rewrite length_concat_replicate in Hover.
  unfold String_repeat.
  destruct (Z.ltb_spec n 0); [reflexivity |].
  destruct (Z.eqb_spec n 0) as [-> | Hn0]; [now contradict Hpad |].
  destruct (Z.eqb_spec (Z.of_nat (length s)) 0) as [Hs | Hs].
  - destruct s; [| simpl in Hs; lia].
    contradict Hpad. apply concat_replicate_nil.
  - simpl.
    destruct (Z.ltb_spec max (Z.of_nat (length s) * n)); [reflexivity | nia].
Qed.

Lemma String_concat_Normal (max : Z) (a b result : jsstring) :
  String_concat max a b = Normal result -> result = a ++ b.
Proof.
  unfold String_concat.
  destruct (Z.eqb_spec (Z.of_nat (length a)) 0) as [Ha | Ha].
  { destruct a; [| simpl in Ha; lia]. now intros [= <-]. }
  destruct (Z.eqb_spec (Z.of_nat (length b)) 0) as [Hb | Hb].
  { destruct b; [| simpl in Hb; lia]. intros [= <-]. now rewrite app_nil_r. }
  destruct (max <? _); [discriminate | now intros [= <-]].
Qed.

Lemma String_concat_fits (max : Z) (a b : jsstring) :
  a = [] ∨ b = [] ∨ Z.of_nat (length a) + Z.of_nat (length b) <= max ->
  String_concat max a b = Normal (a ++ b).
Proof.
  intros Hfits. unfold String_concat.
  destruct (Z.eqb_spec (Z.of_nat (length a)) 0) as [Ha | Ha].
  { destruct a; [reflexivity | simpl in Ha; lia]. }
  destruct (Z.eqb_spec (Z.of_nat (length b)) 0) as [Hb | Hb].
  { destruct b; [now rewrite app_nil_r | simpl in Hb; lia]. }
  destruct Hfits as [-> | [-> | Hfits]]; [simpl in Ha; lia | simpl in Hb; lia |].
  destruct (Z.ltb_spec max (Z.of_nat (length a) + Z.of_nat (length b)));
    [lia | reflexivity].
Qed.

Lemma String_concat_over (max : Z) (a b : jsstring) :
  a ≠ [] -> b ≠ [] -> max < Z.of_nat (length a) + Z.of_nat (length b) ->
  String_concat max a b = Throw RangeError.
Proof.
  intros Ha Hb Hover. unfold String_concat.
  destruct a as [| x a]; [congruence |]. destruct b as [| y b]; [congruence |].
  cbn [length]. rewrite !Nat2Z.inj_succ.
  destruct (Z.eqb_spec (Z.succ (Z.of_nat (length a))) 0); [lia |].
  destruct (Z.eqb_spec (Z.succ (Z.of_nat (length b))) 0); [lia |].
  cbn [length] in Hover. rewrite !Nat2Z.inj_succ in Hover.
  destruct (Z.ltb_spec max (Z.succ (Z.of_nat (length a))
                            + Z.succ (Z.of_nat (length b))));
    [reflexivity | lia].
Qed.

Lemma String_slice_zero (s : jsstring) : String_slice s 0 = s.
Proof.
  unfold String_slice. simpl.
  rewrite Z.min_l by lia. reflexivity.
Qed.

Lemma String_slice_last (s : jsstring) (n : Z) :
  0 < n -> String_slice s (- n) = last_units (Z.to_nat n) s.
Proof.
  intros Hn. unfold String_slice, last_units.
  destruct (Z.ltb_spec (- n) 0) as [_ | Hge]; [| lia].
  f_equal. lia.
Qed.

Lemma last_units_length (n : nat) (s : jsstring) :
  (n <= length s)%nat -> length (last_units n s) = n.
Proof. intros Hn. unfold last_units. rewrite length_drop. lia. Qed.

Lemma last_units_app_short (n : nat) (pad s : jsstring) :
  (length s <= n)%nat -> (n <= length pad + length s)%nat ->
  last_units n (pad ++ s) = last_units (n - length s) pad ++ s.
Proof.
  intros Hs Hn. unfold last_units. rewrite length_app, drop_app.
  replace (length pad + length s - n - length pad)%nat with 0%nat by lia.
  rewrite drop_0. do 2 f_equal. lia.
Qed.

Lemma last_units_app_long (n : nat) (pad s : jsstring) :
  (n <= length s)%nat -> last_units n (pad ++ s) = last_units n s.
Proof.
  intros Hn. unfold last_units. rewrite length_app, drop_app.
  rewrite drop_ge by lia. simpl. f_equal. lia.
Qed.

Lemma last_units_replicate (n m : nat) (c : code_unit) :
  (n <= m)%nat -> last_units n (replicate m c) = replicate n c.
Proof.
  intros Hn. unfold last_units. rewrite length_replicate, drop_replicate.
  f_equal. lia.
Qed.

(** ** Padding *)

Section PaddingFacts.
Context {number : Type} (max : Z) (number_toString : number -> jsstring).
Implicit Types (v : string_or_number number) (digit : Z) (word : jsstring).

(** Both helpers run the same three steps on [abs digit]. *)
Lemma toWordPadding_unfold v digit word :
  toWordPadding max number_toString v digit word =
  (pad ← String_repeat max word (Z.abs digit);
   padded ← String_concat max pad (rendering number_toString v);
   mret (String_slice padded (- Z.abs digit))).
Proof.
  unfold toWordPadding.
  replace (if digit <? 0 then - digit else digit) with (Z.abs digit)
    by (destruct (Z.ltb_spec digit 0); lia).
  destruct v as [s | n]; reflexivity.
Qed.

Lemma toZeroPadding_toWordPadding v digit :
  toZeroPadding max number_toString v digit
  = toWordPadding max number_toString v digit (lit "0").
Proof. reflexivity. Qed.

(** The padded string fits: the call returns the last units of it. *)
Lemma toWordPadding_normal v digit word :
  let pad := concat (replicate (Z.to_nat (Z.abs digit)) word) in
  let text := rendering number_toString v in
  pad = [] ∨ Z.of_nat (length pad) <= max ->
  pad = [] ∨ text = []
  ∨ Z.of_nat (length pad) + Z.of_nat (length text) <= max ->
  toWordPadding max number_toString v digit word
  = Normal (String_slice (pad ++ text) (- Z.abs digit)).
Proof.
  intros pad text Hpad Hjoin. rewrite toWordPadding_unfold.
  rewrite String_repeat_fits by (exact Hpad || lia).
  cbn [mbind completion_bind]. fold pad text.
  rewrite String_concat_fits by exact Hjoin. reflexivity.
Qed.

(** The padded string does not fit: the call throws. *)
Lemma toWordPadding_throws v digit word :
  let pad := concat (replicate (Z.to_nat (Z.abs digit)) word) in
  let text := rendering number_toString v in
  pad ≠ [] ->
  max < Z.of_nat (length pad)
  ∨ (text ≠ [] ∧ max < Z.of_nat (length pad) + Z.of_nat (length text)) ->
  toWordPadding max number_toString v digit word = Throw RangeError.
Proof.
  intros pad text Hpad Hover. rewrite toWordPadding_unfold.
  destruct (Z_lt_le_dec max (Z.of_nat (length pad))) as [Hrepeat | Hfits].
  - rewrite String_repeat_over by (assumption || lia). reflexivity.
  - destruct Hover as [Hrepeat | (Htext & Hjoin)]; [lia |].
    rewrite String_repeat_fits by (lia || (right; exact Hfits)).
    cbn [mbind completion_bind]. fold pad text.
    now rewrite String_concat_over.
Qed.

(** What a padding helper returns when it returns. *)
Lemma toWordPadding_Normal v digit word (result : jsstring) :
  toWordPadding max number_toString v digit word = Normal result ->
  let pad := concat (replicate (Z.to_nat (Z.abs digit)) word) in
  String_repeat max word (Z.abs digit) = Normal pad
  ∧ result = String_slice (pad ++ rendering number_toString v)
               (- Z.abs digit).
Proof.
  rewrite toWordPadding_unfold. intros Hrun pad.
  destruct (String_repeat max word (Z.abs digit)) as [pad' | e] eqn:Hrepeat;
    [| discriminate].
  apply String_repeat_Normal in Hrepeat as Hpad. fold pad in Hpad. subst pad'.
  split; [reflexivity |]. cbn [mbind completion_bind] in Hrun.
  destruct (String_concat max pad _) as [padded | e] eqn:Hconcat;
    [| discriminate].
  apply String_concat_Normal in Hconcat as ->.
  cbn [mbind completion_bind] in Hrun. now injection Hrun as <-.
Qed.

Lemma zeros_length digit :
  Z.of_nat (length (concat (replicate (Z.to_nat (Z.abs digit)) (lit "0"))))
  = Z.abs digit.
Proof. rewrite length_concat_replicate. simpl. lia. Qed.

Lemma toZeroPadding_normal v digit :
  let text := rendering number_toString v in
  Z.abs digit <= max ->
  text = [] ∨ Z.abs digit + Z.of_nat (length text) <= max ->
  toZeroPadding max number_toString v digit
  = Normal (String_slice
              (replicate (Z.to_nat (Z.abs digit)) 48%N ++ text)
              (- Z.abs digit)).
Proof.
  intros text Hpad Hjoin.
  rewrite toZeroPadding_toWordPadding, toWordPadding_normal.
  - change (lit "0") with [48%N]. now rewrite concat_replicate_unit.
  - right. now rewrite zeros_length.
  - right. rewrite zeros_length. exact Hjoin.
Qed.
End PaddingFacts.

(** C6, as amended: for every value [v] and every integer [digit] other
    than zero such that the padded string fits the limit of the engine on
    the length of a string ([abs digit] is at most the limit and, unless
    the rendering of [v] is empty, so is [abs digit] plus its length),
    [toZeroPadding v digit] returns the last [abs digit] code units of
    [abs digit] zeros followed by the rendering of [v]. The result has
    exactly [abs digit] code units: a rendering that is not wider than the
    width is filled up with zeros on the left, and of a wider one only the
    last [abs digit] code units are kept. Where the padded string does not
    fit, the call throws a RangeError. So [toZeroPadding 7 3] is ["007"]
    and [toZeroPadding 12345 3] is ["345"], under every limit of at least
    eight code units. *)
Theorem toZeroPadding_width {number : Type} (max_string_length : Z)
    (number_toString : number -> jsstring)
    (v : string_or_number number) (digit : Z) :
  let width := Z.to_nat (Z.abs digit) in
  let text := rendering number_toString v in
  let fits :=
    Z.abs digit <= max_string_length
    ∧ (text = []
       ∨ Z.abs digit + Z.of_nat (length text) <= max_string_length) in
  (digit <> 0 -> fits ->
   ∃ result,
     toZeroPadding max_string_length number_toString v digit = Normal result
     ∧ result = last_units width (replicate width 48%N ++ text)
     ∧ length result = width
     ∧ ((length text <= width)%nat ->
        result = replicate (width - length text) 48%N ++ text)
     ∧ ((width <= length text)%nat -> result = last_units width text))
  ∧ (digit <> 0 -> ¬ fits ->
     toZeroPadding max_string_length number_toString v digit
     = Throw RangeError)
  ∧ (8 <= max_string_length ->
     toZeroPadding max_string_length decimal (IsNumber (safe 7)) 3
     = Normal (lit "007")
     ∧ toZeroPadding max_string_length decimal (IsNumber (safe 12345)) 3
       = Normal (lit "345")).
Proof.
  intros width text fits. split; [| split].
  - intros Hdigit [Hpad Hjoin].
    exists (last_units width (replicate width 48%N ++ text)).
    split.
    { rewrite toZeroPadding_normal by assumption.
      rewrite String_slice_last by lia. reflexivity. }
    split; [reflexivity |].
    split.
    { apply last_units_length. rewrite length_app, length_replicate. lia. }
    split.
    + intros Hshort.
      rewrite last_units_app_short by (rewrite ?length_replicate; lia).
      now rewrite last_units_replicate by lia.
    + intros Hlong. now apply last_units_app_long.
  - intros Hdigit Hover.
    rewrite toZeroPadding_toWordPadding. apply toWordPadding_throws.
    { intros Hzeros. apply (f_equal length) in Hzeros.
      rewrite length_concat_replicate in Hzeros. simpl in Hzeros. lia. }
    fold text. rewrite zeros_length.
    destruct (Z_lt_le_dec max_string_length (Z.abs digit)) as [Hpad | Hpad];
      [now left | right].
    assert (Htext : text ≠ []).
    { intros Htext. apply Hover. split; [exact Hpad | now left]. }
    split; [exact Htext |].
    destruct (Z_lt_le_dec max_string_length
                (Z.abs digit + Z.of_nat (length text))) as [Hjoin | Hjoin];
      [exact Hjoin |].
    exfalso. apply Hover. split; [exact Hpad | now right].
  - intros Hmax. split; rewrite toZeroPadding_normal;
      try reflexivity; try (simpl; lia); right; simpl; lia.
Qed.

Lemma toZeroPadding_width_witness :
  -5 <> 0
  ∧ (Z.abs (-5) <= V8_max_string_length
     ∧ (rendering decimal (IsNumber (safe 42)) = []
        ∨ Z.abs (-5)
          + Z.of_nat (length (rendering decimal (IsNumber (safe 42))))
          <= V8_max_string_length))
  ∧ ∃ result,
      toZeroPadding V8_max_string_length decimal (IsNumber (safe 42)) (-5)
      = Normal result
      ∧ length result = 5%nat
      ∧ result = lit "00042".
Proof.
  assert (Hdigit : -5 <> 0) by lia.
  assert (Hfits : Z.abs (-5) <= V8_max_string_length
            ∧ (rendering decimal (IsNumber (safe 42)) = []
               ∨ Z.abs (-5)
                 + Z.of_nat (length (rendering decimal (IsNumber (safe 42))))
                 <= V8_max_string_length))
    by (vm_compute; split; [| right]; discriminate).
  split; [exact Hdigit |]. split; [exact Hfits |].
  destruct (proj1 (toZeroPadding_width V8_max_string_length decimal
                     (IsNumber (safe 42)) (-5)) Hdigit Hfits)
    as (result & Hrun & _ & Hlen & Hshort & _).
  exists result. split; [exact Hrun |]. split; [exact Hlen |].
  apply Hshort. simpl. lia.
Defined.

(** C6 as stated fails at width zero: [toZeroPadding 7 0] is ["7"], one
    code unit and not [abs 0] of them. *)
Lemma toZeroPadding_width_zero_counterexample :
  ¬ (∀ (v : string_or_number safe_integer) (digit : Z),
       ∃ result,
         toZeroPadding V8_max_string_length decimal v digit = Normal result
         ∧ length result = Z.to_nat (Z.abs digit)).
Proof.
  intros Hclaim.
  destruct (Hclaim (IsNumber (safe 7)) 0) as (result & Hrun & Hlen).
  vm_compute in Hrun. injection Hrun as <-. discriminate Hlen.
Qed.

(** C7: a negative [digit] behaves as its absolute value, in both padding
    helpers: [toZeroPadding v (- digit)] is [toZeroPadding v digit] and
    [toWordPadding v (- digit) word] is [toWordPadding v digit word]. *)
Theorem padding_negative_digit {number : Type} (max_string_length : Z)
    (number_toString : number -> jsstring)
    (v : string_or_number number) (digit : Z) (word : jsstring) :
  toZeroPadding max_string_length number_toString v (- digit)
    = toZeroPadding max_string_length number_toString v digit
  ∧ toWordPadding max_string_length number_toString v (- digit) word
    = toWordPadding max_string_length number_toString v digit word
  ∧ toZeroPadding max_string_length number_toString v digit
    = toZeroPadding max_string_length number_toString v (Z.abs digit)
  ∧ toWordPadding max_string_length number_toString v digit word
    = toWordPadding max_string_length number_toString v (Z.abs digit) word.
Proof.
  rewrite !toZeroPadding_toWordPadding, !toWordPadding_unfold.
  rewrite Z.abs_opp, Z.abs_idemp. repeat split; reflexivity.
Qed.

(** C10: at [digit = 0] both padding helpers return the whole rendering of
    [v], not the empty string: [slice(-0)] takes the string from its start.
    The result is as long as the rendering; [toZeroPadding 12345 0] is
    ["12345"]. *)
Theorem padding_zero_digit {number : Type} (max_string_length : Z)
    (number_toString : number -> jsstring)
    (v : string_or_number number) (word : jsstring) :
  toZeroPadding max_string_length number_toString v 0
    = Normal (rendering number_toString v)
  ∧ toWordPadding max_string_length number_toString v 0 word
    = Normal (rendering number_toString v)
  ∧ toZeroPadding max_string_length decimal (IsNumber (safe 12345)) 0
    = Normal (lit "12345")
  ∧ length (lit "12345") ≠ Z.to_nat (Z.abs 0).
Proof.
  assert (Hword : ∀ {number' : Type} (render : number' -> jsstring) v' word',
            toWordPadding max_string_length render v' 0 word'
            = Normal (rendering render v')).
  { intros number' render v' word'.
    rewrite toWordPadding_normal by (left; reflexivity).
    simpl. now rewrite String_slice_zero. }
  rewrite toZeroPadding_toWordPadding, !Hword.
  repeat split; try reflexivity. discriminate.
Qed.

(** ** Digest encoder *)

Lemma digit_unit_hex (d : Z) : 0 <= d < 16 -> digit_unit d = hex_digit d.
Proof.
  intros Hd.
  assert (Hcases : d = 0 ∨ d = 1 ∨ d = 2 ∨ d = 3 ∨ d = 4 ∨ d = 5 ∨ d = 6
                   ∨ d = 7 ∨ d = 8 ∨ d = 9 ∨ d = 10 ∨ d = 11 ∨ d = 12
                   ∨ d = 13 ∨ d = 14 ∨ d = 15) by lia.
  repeat (destruct Hcases as [-> | Hcases]; [reflexivity |]).
  subst d. reflexivity.
Qed.

Lemma hex_digit_lowercase (d : Z) : 0 <= d < 16 -> hex_digit d ∈ hex_digits.
Proof.
  intros Hd. unfold hex_digit.
  destruct (hex_digits !! Z.to_nat d) as [c |] eqn:Hc.
  - simpl. eapply list_elem_of_lookup_2. exact Hc.
  - apply lookup_ge_None in Hc. simpl in Hc. lia.
Qed.

(** The radix-16 rendering of a byte value: the fuel is enough, and the
    digits are those of the contract. *)
Lemma Number_toString_16_byte (v : Z) :
  0 <= v <= 255 -> Number_toString v 16 = hex_unpadded v.
Proof.
  intros Hv. unfold Number_toString, hex_unpadded.
  destruct (Z.ltb_spec v 0) as [Hneg | _]; [lia |].
  destruct (Z.ltb_spec v 16) as [Hsmall | Hbig].
  - assert (Hq : v / 16 = 0) by (apply Z.div_small; lia).
    assert (Hr : v mod 16 = v) by (apply Z.mod_small; lia).
    destruct (Z.to_nat (Z.log2 v)); cbn [digits_of]; rewrite ?Hq, Hr;
      cbn [Z.eqb]; now rewrite digit_unit_hex by lia.
  - assert (Hlog : 4 <= Z.log2 v).
    { change 4 with (Z.log2 16). apply Z.log2_le_mono. lia. }
    destruct (Z.to_nat (Z.log2 v)) as [| fuel] eqn:Hfuel; [lia |].
    assert (Hq : 1 <= v / 16 <= 15)
      by (Z.to_euclidean_division_equations; lia).
    assert (Hqq : v / 16 / 16 = 0) by (apply Z.div_small; lia).
    assert (Hqr : (v / 16) mod 16 = v / 16) by (apply Z.mod_small; lia).
    assert (Hr : 0 <= v mod 16 < 16) by (apply Z.mod_pos_bound; lia).
    cbn [digits_of]. destruct (Z.eqb_spec (v / 16) 0) as [Hz | _]; [lia |].
    destruct fuel; cbn [digits_of]; rewrite ?Hqq, Hqr; cbn [Z.eqb];
      now rewrite !digit_unit_hex by lia.
Qed.

Lemma unsigned_byte_range (b : Z) :
  -128 <= b <= 127 -> 0 <= unsigned_byte b <= 255 ∧ unsigned_byte b = b mod 256.
Proof.
  intros Hb. unfold unsigned_byte.
  destruct (Z.ltb_spec b 0) as [Hneg | Hpos].
  - split; [lia |]. Z.to_euclidean_division_equations; lia.
  - split; [lia |]. symmetry. apply Z.mod_small. lia.
Qed.

Lemma hex_unpadded_lowercase (v : Z) :
  0 <= v <= 255 -> Forall (λ c, c ∈ hex_digits) (hex_unpadded v).
Proof.
  intros Hv. unfold hex_unpadded.
  assert (Hr : 0 <= v mod 16 < 16) by (apply Z.mod_pos_bound; lia).
  assert (Hq : 0 <= v / 16 < 16)
    by (split; [apply Z.div_pos | apply Z.div_lt_upper_bound]; lia).
  destruct (Z.ltb_spec v 16);
    repeat (apply Forall_cons_2; [apply hex_digit_lowercase; lia |]);
    apply Forall_nil_2.
Qed.

Lemma hex_unpadded_length (v : Z) :
  length (hex_unpadded v) = if v <? 16 then 1%nat else 2%nat.
Proof. unfold hex_unpadded. now destruct (v <? 16). Qed.

(** The loop of [createMD5HashKey] appends one rendering per byte. *)
Lemma createMD5HashKey_loop (render : Z -> jsstring) (bytes : list Z)
    (hash_key : jsstring) :
  fold_left (λ hash_key byte, hash_key ++ render byte) bytes hash_key
  = hash_key ++ concat (render <$> bytes).
Proof.
  revert hash_key. induction bytes as [| byte bytes IH]; intros hash_key.
  - simpl. now rewrite app_nil_r.
  - simpl. rewrite IH. now rewrite <- app_assoc.
Qed.

Lemma createMD5HashKey_unfold (computeDigest : jsstring -> list Z)
    (text : jsstring) :
  Forall (λ b, -128 <= b <= 127) (computeDigest text) ->
  createMD5HashKey computeDigest text
  = concat ((λ b, hex_unpadded (unsigned_byte b)) <$> computeDigest text).
Proof.
  intros Hbytes. unfold createMD5HashKey.
  rewrite (createMD5HashKey_loop
             (λ byte, if byte <? 0 then Number_toString (byte + 256) 16
                      else Number_toString byte 16)).
  simpl. f_equal. apply Forall_fmap_ext_1.
  eapply Forall_impl; [exact Hbytes |].
  intros b Hb. cbv beta in Hb |- *. unfold unsigned_byte.
  destruct (Z.ltb_spec b 0); apply Number_toString_16_byte; lia.
Qed.

(** The hash key has one code unit for every byte below sixteen and two
    for every other byte. *)
Lemma createMD5HashKey_length (computeDigest : jsstring -> list Z)
    (text : jsstring) :
  Forall (λ b, -128 <= b <= 127) (computeDigest text) ->
  length (createMD5HashKey computeDigest text)
  = sum_list ((λ b, if unsigned_byte b <? 16 then 1%nat else 2%nat)
                <$> computeDigest text).
Proof.
  intros Hbytes. rewrite createMD5HashKey_unfold by exact Hbytes.
  rewrite length_concat, <- list_fmap_compose. f_equal.
  apply list_fmap_ext. intros i b _. simpl. apply hex_unpadded_length.
Qed.

(** C1: [createMD5HashKey] returns the renderings of the 16 digest bytes,
    concatenated in byte order and with nothing between them. Each signed
    byte in [-128, 127] is taken to its unsigned value in [0, 255] by adding
    256 when it is negative, and rendered in lowercase hexadecimal without
    padding: one digit below sixteen, two otherwise. *)
Theorem createMD5HashKey_renders_bytes (computeDigest : jsstring -> list Z)
    (text : jsstring) :
  length (computeDigest text) = 16%nat ->
  Forall (λ b, -128 <= b <= 127) (computeDigest text) ->
  let renderings :=
    (λ b, hex_unpadded (unsigned_byte b)) <$> computeDigest text in
  createMD5HashKey computeDigest text = concat renderings
  ∧ length renderings = 16%nat
  ∧ Forall (λ b, 0 <= unsigned_byte b <= 255
                 ∧ unsigned_byte b = b mod 256) (computeDigest text)
  ∧ Forall (λ c, c ∈ hex_digits) (createMD5HashKey computeDigest text).
Proof.
  intros Hlen Hbytes renderings.
  assert (Hkey : createMD5HashKey computeDigest text = concat renderings)
    by now apply createMD5HashKey_unfold.
  split; [exact Hkey |].
  split; [unfold renderings; now rewrite length_fmap |].
  split.
  { eapply Forall_impl; [exact Hbytes |].
    intros b Hb. now apply unsigned_byte_range. }
  rewrite Hkey. unfold renderings. apply Forall_concat, Forall_fmap.
  eapply Forall_impl; [exact Hbytes |].
  intros b Hb. cbv beta in Hb. simpl.
  apply hex_unpadded_lowercase, unsigned_byte_range, Hb.
Qed.

Lemma createMD5HashKey_renders_bytes_witness :
  length (computeDigest_MD5_UTF_8 (lit "abc")) = 16%nat
  ∧ Forall (λ b, -128 <= b <= 127) (computeDigest_MD5_UTF_8 (lit "abc"))
  ∧ createMD5HashKey computeDigest_MD5_UTF_8 (lit "abc")
    = concat ((λ b, hex_unpadded (unsigned_byte b))
                <$> computeDigest_MD5_UTF_8 (lit "abc")).
Proof.
  assert (Hlen : length (computeDigest_MD5_UTF_8 (lit "abc")) = 16%nat)
    by (vm_compute; reflexivity).
  assert (Hbytes : Forall (λ b, -128 <= b <= 127)
                     (computeDigest_MD5_UTF_8 (lit "abc")))
    by (vm_compute; repeat (apply Forall_cons_2; [split; discriminate |]);
        apply Forall_nil_2).
  split; [exact Hlen |]. split; [exact Hbytes |].
  apply (createMD5HashKey_renders_bytes computeDigest_MD5_UTF_8 (lit "abc")
           Hlen Hbytes).
Defined.

(** C2, evaluated where it fails: the MD5 digest of the empty text has
    three bytes below sixteen (00, 04 and 09), each rendered as one digit,
    so the hash key has 29 code units, an odd number. *)
Theorem createMD5HashKey_empty_text_odd :
  createMD5HashKey computeDigest_MD5_UTF_8 (lit "")
    = lit "d41d8cd98f0b24e980998ecf8427e"
  ∧ length (createMD5HashKey computeDigest_MD5_UTF_8 (lit "")) = 29%nat
  ∧ ¬ Nat.Even (length (createMD5HashKey computeDigest_MD5_UTF_8 (lit ""))).
Proof.
  assert (Hkey : createMD5HashKey computeDigest_MD5_UTF_8 (lit "")
                 = lit "d41d8cd98f0b24e980998ecf8427e")
    by (vm_compute; reflexivity).
  rewrite Hkey. split; [reflexivity |]. split; [reflexivity |].
  intros [half Hhalf]. simpl in Hhalf. lia.
Qed.

(** ** SpreadsheetLib *)




(** ** Pipe *)

Section PipeFacts.
Context {T : Type}.
Implicit Types (w : pipe_world T) (this : ref) (fc : T -> T).

Lemma Pipe_new_run (v : T) w :
  Pipe_new v w =
  (Normal (fresh (dom (pipes w))),
   {| pipes := <[fresh (dom (pipes w)) := v]> (pipes w);
      pipe_console := pipe_console w |}).
Proof. reflexivity. Qed.

Lemma Pipe_to_run fc this w (x : T) :
  pipes w !! this = Some x ->
  Pipe_to fc this w =
  (Normal this,
   {| pipes := <[this := fc x]> (pipes w);
      pipe_console := pipe_console w |}).
Proof.
  intros Hx. unfold Pipe_to, mbind, M_bind, pipe_field. now rewrite Hx.
Qed.

Lemma Pipe_log_run this w (x : T) :
  pipes w !! this = Some x ->
  Pipe_log this w =
  (Normal this,
   {| pipes := pipes w; pipe_console := pipe_console w ++ [x] |}).
Proof.
  intros Hx. unfold Pipe_log, mbind, M_bind, pipe_field. now rewrite Hx.
Qed.

Lemma Pipe_exit_run this w (x : T) :
  pipes w !! this = Some x -> Pipe_exit this w = (Normal x, w).
Proof. intros Hx. unfold Pipe_exit, pipe_field. now rewrite Hx. Qed.

(** Chaining [to] over a pipe that holds [x] leaves the same pipe, now
    holding the functions applied in turn, and touches nothing else. *)
Lemma Pipe_chain_run (fcs : list (T -> T)) :
  ∀ (p : M (pipe_world T) ref) w w1 this (x : T),
    p w = (Normal this, w1) ->
    pipes w1 !! this = Some x ->
    Pipe_chain fcs p w =
    (Normal this,
     {| pipes := <[this := fold_left (λ x fc, fc x) fcs x]> (pipes w1);
        pipe_console := pipe_console w1 |}).
Proof.
  induction fcs as [| fc fcs IH]; intros p w w1 this x Hp Hx.
  - simpl. rewrite Hp. destruct w1 as [store out]. simpl in *.
    now rewrite insert_id.
  - unfold Pipe_chain. cbn [fold_left].
    fold (Pipe_chain fcs (this ← p; Pipe_to fc this)).
    rewrite (IH _ w
               {| pipes := <[this := fc x]> (pipes w1);
                  pipe_console := pipe_console w1 |} this (fc x)).
    + simpl. now rewrite insert_insert_eq.
    + unfold mbind at 1. unfold M_bind. rewrite Hp.
      now apply Pipe_to_run.
    + simpl. apply lookup_insert_eq.
Qed.

Lemma Pipe_chain_exit_run (v : T) (fcs : list (T -> T)) w :
  ∃ w', (this ← Pipe_chain fcs (Pipe_new v); Pipe_exit this) w
        = (Normal (fold_left (λ x fc, fc x) fcs v), w').
Proof.
  eexists. unfold mbind at 1. unfold M_bind.
  rewrite (Pipe_chain_run fcs (Pipe_new v) w _ _ v (Pipe_new_run v w))
    by (simpl; apply lookup_insert_eq).
  apply Pipe_exit_run. simpl. apply lookup_insert_eq.
Qed.
End PipeFacts.

(** C8: a Pipe built from [v], on which [to f1], ..., [to fn] are chained
    and [exit] is called, returns [fn (... (f1 v))]. On a pipe holding [x],
    [to f] stores [f x] in it and returns the same pipe, [log] returns the
    pipe with the held value as it was (and writes it to the console), and
    [exit] returns [x]. So [Pipe(5).to(x => x + 1).to(x => x * 2).exit()]
    is 12. *)
Theorem Pipe_chain_exit {T : Type} (v : T) (fcs : list (T -> T))
    (w : pipe_world T) :
  (∃ w', (this ← Pipe_chain fcs (Pipe_new v); Pipe_exit this) w
         = (Normal (fold_left (λ x fc, fc x) fcs v), w'))
  ∧ (∀ (this : ref) (x : T) (fc : T -> T),
       pipes w !! this = Some x ->
       Pipe_to fc this w =
         (Normal this,
          {| pipes := <[this := fc x]> (pipes w);
             pipe_console := pipe_console w |})
       ∧ Pipe_log this w =
         (Normal this,
          {| pipes := pipes w; pipe_console := pipe_console w ++ [x] |})
       ∧ Pipe_exit this w = (Normal x, w))
  ∧ (∀ w5 : pipe_world Z,
       ∃ w', (this ← Pipe_chain [λ x, x + 1; λ x, x * 2] (Pipe_new 5);
              Pipe_exit this) w5
             = (Normal 12, w')).
Proof.
  split; [apply Pipe_chain_exit_run |]. split.
  - intros this x fc Hx. split; [now apply Pipe_to_run |].
    split; [now apply Pipe_log_run | now apply Pipe_exit_run].
  - intros w5. apply (Pipe_chain_exit_run 5 [λ x, x + 1; λ x, x * 2] w5).
Qed.

Lemma Pipe_chain_exit_witness :
  let w := {| pipes := {[ 1%positive := 5 ]}; pipe_console := [] |} in
  pipes w !! 1%positive = Some 5
  ∧ Pipe_to (λ x, x + 1) 1%positive w =
      (Normal 1%positive,
       {| pipes := <[1%positive := 6]> (pipes w); pipe_console := [] |})
  ∧ Pipe_log 1%positive w =
      (Normal 1%positive, {| pipes := pipes w; pipe_console := [5] |})
  ∧ Pipe_exit 1%positive w = (Normal 5, w).
Proof.
  intros w.
  assert (Hx : pipes w !! 1%positive = Some 5) by reflexivity.
  split; [exact Hx |].
  exact (proj1 (proj2 (Pipe_chain_exit 5 [] w)) 1%positive 5 (λ x, x + 1) Hx).
Defined.

(** ** ArrayActions *)

Section ArrayFacts.
Context {T : Type}.
Implicit Types (w : array_world T) (array : ref) (a : list (element T)).

Lemma Array_get_lookup a (i : Z) (x : element T) :
  0 <= i -> a !! Z.to_nat i = Some x -> Array_get a i = x.
Proof.
  intros Hi Hx. unfold Array_get.
  destruct (Z.ltb_spec i 0); [lia |]. now rewrite Hx.
Qed.

Lemma Array_get_outside a (i : Z) :
  Z.of_nat (length a) <= i -> Array_get a i = Undefined.
Proof.
  intros Hi. unfold Array_get.
  destruct (Z.ltb_spec i 0); [reflexivity |].
  rewrite lookup_ge_None_2 by lia. reflexivity.
Qed.

(** Replacing two neighbours by themselves in the other order is an
    update of the two positions. *)
Lemma exchange_neighbours a (i : nat) (x y : element T) :
  a !! i = Some x -> a !! S i = Some y ->
  take i a ++ [y; x] ++ drop (S (S i)) a = <[i := y]> (<[S i := x]> a).
Proof.
  revert a. induction i as [| i IH]; intros a Hx Hy.
  - destruct a as [| x' [| y' rest]]; try discriminate.
    simpl in *. now rewrite drop_0.
  - destruct a as [| h rest]; [discriminate |].
    simpl in *. f_equal. now apply IH.
Qed.

Lemma Array_splice_exchange a (i : Z) (x y : element T) :
  0 <= i -> a !! Z.to_nat i = Some x -> a !! Z.to_nat (i + 1) = Some y ->
  Array_splice a i 2 [y; x]
  = <[Z.to_nat i := y]> (<[Z.to_nat (i + 1) := x]> a).
Proof.
  intros Hi Hx Hy.
  assert (Hlen : i + 1 < Z.of_nat (length a))
    by (apply lookup_lt_Some in Hy; lia).
  replace (Z.to_nat (i + 1)) with (S (Z.to_nat i)) in * by lia.
  rewrite <- (exchange_neighbours a (Z.to_nat i) x y Hx Hy).
  unfold Array_splice.
  destruct (Z.ltb_spec i 0); [lia |].
  rewrite Z.min_l, Z.max_l, Z.min_l by lia.
  do 3 f_equal. lia.
Qed.

(** What the two methods do to the store, on an array whose contents
    are [a]. *)
Lemma swapUp_run w array a (index : Z) :
  arrays w !! array = Some a -> 0 < index ->
  swapUp array index w =
  (Normal array,
   {| arrays :=
        <[array := Array_splice a (index - 1) 2
                     [Array_get a index; Array_get a (index - 1)]]>
          (arrays w);
      array_console := array_console w |}).
Proof.
  intros Ha Hindex. unfold swapUp.
  destruct (Z.leb_spec index 0); [lia |].
  run_on Ha. reflexivity.
Qed.

Lemma swapUp_not_positive w array (index : Z) :
  index <= 0 -> swapUp array index w = (Normal array, w).
Proof.
  intros Hindex. unfold swapUp.
  destruct (Z.leb_spec index 0); [reflexivity | lia].
Qed.

Lemma swapDown_run w array a (index : Z) :
  arrays w !! array = Some a -> 0 <= index < Z.of_nat (length a) - 1 ->
  swapDown array index w =
  (Normal array,
   {| arrays :=
        <[array := Array_splice a index 2
                     [Array_get a (index + 1); Array_get a index]]>
          (arrays w);
      array_console := array_console w ++ [Z.of_nat (length a)] |}).
Proof.
  intros Ha Hindex. unfold swapDown.
  destruct (Z.ltb_spec index 0); [lia |].
  run_on Ha.
  destruct (Z.leb_spec (Z.of_nat (length a) - 1) index); [lia |].
  run_on Ha. reflexivity.
Qed.

Lemma swapDown_outside w array a (index : Z) :
  arrays w !! array = Some a ->
  index < 0 ∨ Z.of_nat (length a) - 1 <= index ->
  swapDown array index w = (Normal array, w).
Proof.
  intros Ha Hindex. unfold swapDown.
  destruct (Z.ltb_spec index 0); [reflexivity |].
  run_on Ha.
  destruct (Z.leb_spec (Z.of_nat (length a) - 1) index); [reflexivity | lia].
Qed.

(** Two neighbours exchanged: the length and every other position stay. *)
Lemma exchanged_lookups a (i : nat) (x y : element T) :
  a !! i = Some x -> a !! S i = Some y ->
  let a' := <[i := y]> (<[S i := x]> a) in
  length a' = length a
  ∧ a' !! i = a !! S i
  ∧ a' !! S i = a !! i
  ∧ ∀ j : nat, j ≠ i -> j ≠ S i -> a' !! j = a !! j.
Proof.
  intros Hx Hy a'. subst a'.
  assert (Hi : (S i < length a)%nat) by (now apply lookup_lt_Some in Hy).
  split; [now rewrite !length_insert |].
  split; [rewrite list_lookup_insert_eq by (rewrite length_insert; lia);
          now rewrite Hy |].
  split.
  - rewrite list_lookup_insert_ne by lia.
    rewrite list_lookup_insert_eq by lia. now rewrite Hx.
  - intros j Hj1 Hj2. now rewrite !list_lookup_insert_ne by lia.
Qed.
End ArrayFacts.

(** X11: inside the array [swapUp] exchanges the element at [index] with
    the one before it, and changes nothing else. *)
Lemma swapUp_inside {T : Type} (w : array_world T) (array : ref)
    (a : list (element T)) (index : Z) :
  arrays w !! array = Some a ->
  0 < index < Z.of_nat (length a) ->
  ∃ a',
    swapUp array index w =
      (Normal array,
       {| arrays := <[array := a']> (arrays w);
          array_console := array_console w |})
    ∧ length a' = length a
    ∧ a' !! Z.to_nat (index - 1) = a !! Z.to_nat index
    ∧ a' !! Z.to_nat index = a !! Z.to_nat (index - 1)
    ∧ ∀ j : nat,
        j ≠ Z.to_nat (index - 1) -> j ≠ Z.to_nat index -> a' !! j = a !! j.
Proof.
  intros Ha Hindex.
  destruct (lookup_lt_is_Some_2 a (Z.to_nat (index - 1))) as [x Hx]; [lia |].
  destruct (lookup_lt_is_Some_2 a (Z.to_nat index)) as [y Hy]; [lia |].
  replace (Z.to_nat index) with (S (Z.to_nat (index - 1))) in * by lia.
  eexists. split.
  - rewrite (swapUp_run w array a index Ha) by lia.
    rewrite (Array_get_lookup a index y), (Array_get_lookup a (index - 1) x);
      try lia; try assumption;
      [| replace (Z.to_nat index) with (S (Z.to_nat (index - 1))) by lia;
         assumption].
    rewrite (Array_splice_exchange a (index - 1) x y); try lia;
      try assumption;
      [| replace (Z.to_nat (index - 1 + 1)) with (S (Z.to_nat (index - 1)))
           by lia; assumption].
    replace (Z.to_nat (index - 1 + 1)) with (S (Z.to_nat (index - 1))) by lia.
    reflexivity.
  - now apply exchanged_lookups.
Qed.

(** On [[x; y; z]] index 1 gives [[y; x; z]] and index 0 changes nothing. *)
Lemma swapUp_examples {T : Type} (w : array_world T) (array : ref)
    (x y z : element T) :
  arrays w !! array = Some [x; y; z] ->
  swapUp array 1 w =
    (Normal array,
     {| arrays := <[array := [y; x; z]]> (arrays w);
        array_console := array_console w |})
  ∧ swapUp array 0 w = (Normal array, w).
Proof.
  intros Ha. split.
  - now rewrite (swapUp_run w array [x; y; z] 1 Ha) by lia.
  - now apply swapUp_not_positive.
Qed.

(** At the end of the array or past it [swapUp] makes the array longer. *)
Lemma swapUp_outside_grows {T : Type} (w : array_world T) (array : ref)
    (a : list (element T)) (index : Z) :
  arrays w !! array = Some a ->
  0 < index -> Z.of_nat (length a) <= index ->
  ∃ a',
    swapUp array index w =
      (Normal array,
       {| arrays := <[array := a']> (arrays w);
          array_console := array_console w |})
    ∧ (length a < length a')%nat.
Proof.
  intros Ha Hpos Hindex. eexists. split.
  - apply (swapUp_run w array a index Ha Hpos).
  - unfold Array_splice.
    destruct (Z.ltb_spec (index - 1) 0); [lia |].
    rewrite !length_app, length_take, length_drop. simpl. lia.
Qed.

(** C4: [swapDown] with [index < 0] or [index >= length - 1] leaves the
    array (and all of the store) as it was and returns it. Otherwise it
    exchanges the elements at [index] and [index + 1]; the length and all
    other elements stay, and the same array is returned. So on [[x; y; z]]
    index 1 gives [[x; z; y]] and index 2 changes nothing. *)
Theorem swapDown_exchanges {T : Type} (w : array_world T) (array : ref)
    (a : list (element T)) (index : Z) :
  arrays w !! array = Some a ->
  (index < 0 ∨ Z.of_nat (length a) - 1 <= index ->
   swapDown array index w = (Normal array, w))
  ∧ (0 <= index < Z.of_nat (length a) - 1 ->
     ∃ a',
       swapDown array index w =
         (Normal array,
          {| arrays := <[array := a']> (arrays w);
             array_console := array_console w ++ [Z.of_nat (length a)] |})
       ∧ length a' = length a
       ∧ a' !! Z.to_nat index = a !! Z.to_nat (index + 1)
       ∧ a' !! Z.to_nat (index + 1) = a !! Z.to_nat index
       ∧ ∀ j : nat,
           j ≠ Z.to_nat index -> j ≠ Z.to_nat (index + 1) ->
           a' !! j = a !! j)
  ∧ (∀ x y z : element T,
       a = [x; y; z] ->
       swapDown array 1 w =
         (Normal array,
          {| arrays := <[array := [x; z; y]]> (arrays w);
             array_console := array_console w ++ [3] |})
       ∧ swapDown array 2 w = (Normal array, w)).
Proof.
  intros Ha. split; [now apply swapDown_outside |]. split.
  - intros Hindex.
    destruct (lookup_lt_is_Some_2 a (Z.to_nat index)) as [x Hx]; [lia |].
    destruct (lookup_lt_is_Some_2 a (Z.to_nat (index + 1))) as [y Hy];
      [lia |].
    eexists. split.
    + rewrite (swapDown_run w array a index Ha Hindex).
      rewrite (Array_get_lookup a index x), (Array_get_lookup a (index + 1) y)
        by (assumption || lia).
      rewrite (Array_splice_exchange a index x y) by (assumption || lia).
      reflexivity.
    + replace (Z.to_nat (index + 1)) with (S (Z.to_nat index)) in * by lia.
      now apply exchanged_lookups.
  - intros x y z ->. split.
    + now rewrite (swapDown_run w array [x; y; z] 1 Ha) by (simpl; lia).
    + apply (swapDown_outside w array [x; y; z] 2 Ha). simpl. lia.
Qed.

Lemma swapDown_exchanges_witness :
  let w := {| arrays := {[ 1%positive := [Value 10; Value 20; Value 30] ]};
              array_console := [] |} in
  arrays w !! 1%positive = Some [Value 10; Value 20; Value 30]
  ∧ 0 <= 0 < Z.of_nat (length [Value 10; Value 20; Value 30]) - 1
  ∧ (∃ a',
       swapDown 1%positive 0 w =
         (Normal 1%positive,
          {| arrays := <[1%positive := a']> (arrays w);
             array_console := [3] |})
       ∧ a' !! 0%nat = Some (Value 20)
       ∧ a' !! 1%nat = Some (Value 10)
       ∧ a' !! 2%nat = Some (Value 30))
  ∧ swapDown 1%positive 1 w =
      (Normal 1%positive,
       {| arrays := <[1%positive := [Value 10; Value 30; Value 20]]>
                      (arrays w);
          array_console := [3] |})
  ∧ swapDown 1%positive 2 w = (Normal 1%positive, w).
Proof.
  intros w.
  assert (Ha : arrays w !! 1%positive = Some [Value 10; Value 20; Value 30])
    by reflexivity.
  assert (Hindex : 0 <= 0 < Z.of_nat (length [Value 10; Value 20; Value 30]) - 1)
    by (simpl; lia).
  split; [exact Ha |]. split; [exact Hindex |]. split.
  - destruct (proj1 (proj2 (swapDown_exchanges w 1%positive _ 0 Ha)) Hindex)
      as (a' & Hrun & _ & H0 & H1 & Hothers).
    exists a'. split; [exact Hrun |]. split; [exact H0 |].
    split; [exact H1 |]. apply (Hothers 2%nat); discriminate.
  - exact (proj2 (proj2 (swapDown_exchanges w 1%positive _ 1 Ha))
             (Value 10) (Value 20) (Value 30) eq_refl).
Defined.

(** C3, evaluated where it fails: [swapUp] has no guard for an index at or
    past the end. On [[x; y; z]] with index 3 the read at 3 gives
    [undefined], and the splice puts it before [z]: the array becomes
    [[x; y; undefined; z]] and is one element longer. Past the end, at
    index 5, two [undefined] are appended. *)
Theorem swapUp_at_end_grows {T : Type} (w : array_world T) (array : ref)
    (x y z : element T) :
  arrays w !! array = Some [x; y; z] ->
  swapUp array 3 w =
    (Normal array,
     {| arrays := <[array := [x; y; Undefined; z]]> (arrays w);
        array_console := array_console w |})
  ∧ swapUp array 5 w =
    (Normal array,
     {| arrays := <[array := [x; y; z; Undefined; Undefined]]> (arrays w);
        array_console := array_console w |})
  ∧ length [x; y; Undefined; z] ≠ length [x; y; z].
Proof.
  intros Ha. split; [| split].
  - now rewrite (swapUp_run w array [x; y; z] 3 Ha) by lia.
  - now rewrite (swapUp_run w array [x; y; z] 5 Ha) by lia.
  - discriminate.
Qed.

Lemma swapUp_at_end_grows_witness :
  let w := {| arrays := {[ 1%positive := [Value 10; Value 20; Value 30] ]};
              array_console := [] |} in
  arrays w !! 1%positive = Some [Value 10; Value 20; Value 30]
  ∧ swapUp 1%positive 3 w =
      (Normal 1%positive,
       {| arrays := <[1%positive := [Value 10; Value 20; Undefined; Value 30]]>
                      (arrays w);
          array_console := [] |}).
Proof.
  intros w.
  assert (Ha : arrays w !! 1%positive = Some [Value 10; Value 20; Value 30])
    by reflexivity.
  split; [exact Ha |].
  exact (proj1 (swapUp_at_end_grows w 1%positive _ _ _ Ha)).
Defined.

(** On an array of at most one element [swapDown] is a no-op at every
    index, and [swapUp] at every index that is not positive. *)
Lemma short_array_noop {T : Type} (w : array_world T) (array : ref)
    (a : list (element T)) (index : Z) :
  arrays w !! array = Some a -> (length a <= 1)%nat ->
  swapDown array index w = (Normal array, w)
  ∧ (index <= 0 -> swapUp array index w = (Normal array, w)).
Proof.
  intros Ha Hlen. split.
  - apply (swapDown_outside w array a index Ha). lia.
  - apply swapUp_not_positive.
Qed.

(** C5, evaluated where it fails: on the empty array [swapUp] with index 1
    stores two [undefined], and on the one-element array [[x]] it stores
    [[undefined; x]]; neither call is a no-op. *)
Theorem swapUp_short_array_grows {T : Type} (w : array_world T)
    (array : ref) (a : list (element T)) :
  arrays w !! array = Some a ->
  (a = [] ->
   swapUp array 1 w =
     (Normal array,
      {| arrays := <[array := [Undefined; Undefined]]> (arrays w);
         array_console := array_console w |}))
  ∧ (∀ x, a = [x] ->
     swapUp array 1 w =
       (Normal array,
        {| arrays := <[array := [Undefined; x]]> (arrays w);
           array_console := array_console w |})).
Proof.
  intros Ha. split.
  - intros ->. now rewrite (swapUp_run w array [] 1 Ha) by lia.
  - intros x ->. now rewrite (swapUp_run w array [x] 1 Ha) by lia.
Qed.

Lemma swapUp_short_array_grows_witness :
  let w : array_world Z :=
    {| arrays := {[ 1%positive := [] ]}; array_console := [] |} in
  arrays w !! 1%positive = Some []
  ∧ swapUp 1%positive 1 w =
      (Normal 1%positive,
       {| arrays := <[1%positive := [Undefined; Undefined]]> (arrays w);
          array_console := [] |}).
Proof.
  intros w.
  assert (Ha : arrays w !! 1%positive = Some []) by reflexivity.
  split; [exact Ha |].
  exact (proj1 (swapUp_short_array_grows w 1%positive [] Ha) eq_refl).
Defined.

(** * Further properties *)

(** ** Padding *)

Lemma last_units_all (n : nat) (s : jsstring) :
  (length s <= n)%nat -> last_units n s = s.
Proof.
  intros Hn. unfold last_units.
  replace (length s - n)%nat with 0%nat by lia. apply drop_0.
Qed.

Lemma last_units_at_most (n : nat) (s : jsstring) :
  (length (last_units n s) <= n)%nat.
Proof. unfold last_units. rewrite length_drop. lia. Qed.

Lemma last_units_narrow (n m : nat) (s : jsstring) :
  (n <= m)%nat -> last_units n (last_units m s) = last_units n s.
Proof.
  intros Hn. unfold last_units. rewrite length_drop, drop_drop.
  f_equal. lia.
Qed.

Lemma last_units_suffix (n : nat) (s : jsstring) : last_units n s `suffix_of` s.
Proof. exists (take (length s - n) s). unfold last_units. now rewrite take_drop. Qed.

(** Taking the last units of a padded text again changes nothing, when the
    padding is as long as the width or empty. *)
Lemma last_units_padded_again (n : nat) (pad text : jsstring) :
  (n <= length pad)%nat ∨ pad = [] ->
  last_units n (pad ++ last_units n (pad ++ text))
  = last_units n (pad ++ text).
Proof.
  intros [Hpad | ->].
  - rewrite (last_units_app_long n pad (last_units n (pad ++ text))).
    + now apply last_units_narrow.
    + rewrite last_units_length; [lia |]. rewrite length_app. lia.
  - simpl. now apply last_units_narrow.
Qed.

Lemma word_padding_long_or_empty (word : jsstring) (n : nat) :
  (n <= length (concat (replicate n word)))%nat
  ∨ concat (replicate n word) = [].
Proof.
  destruct word as [| c word].
  - right. apply concat_replicate_nil.
  - left. rewrite length_concat_replicate. simpl. nia.
Qed.

(** X1: with a word that is not empty and a [digit] other than zero,
    [toWordPadding] returns exactly [abs digit] code units when the padded
    string fits the limit of the engine on the length of a string (the
    repeated word does and, unless the rendering is empty, so does the
    repeated word followed by the rendering), and throws a RangeError when
    it does not. In the result a rendering that is not wider than the
    width is kept whole at the end, after the last units of the repeated
    word; of a wider one only the last [abs digit] code units are kept. *)
Theorem toWordPadding_width {number : Type} (max_string_length : Z)
    (number_toString : number -> jsstring)
    (v : string_or_number number) (digit : Z) (word : jsstring) :
  word ≠ [] -> digit <> 0 ->
  let width := Z.to_nat (Z.abs digit) in
  let text := rendering number_toString v in
  let pad := concat (replicate width word) in
  let fits :=
    Z.of_nat (length pad) <= max_string_length
    ∧ (text = []
       ∨ Z.of_nat (length pad) + Z.of_nat (length text)
         <= max_string_length) in
  (fits ->
   ∃ result,
     toWordPadding max_string_length number_toString v digit word
     = Normal result
     ∧ length result = width
     ∧ ((length text <= width)%nat ->
        result = last_units (width - length text) pad ++ text)
     ∧ ((width <= length text)%nat -> result = last_units width text))
  ∧ (¬ fits ->
     toWordPadding max_string_length number_toString v digit word
     = Throw RangeError).
Proof.
  intros Hword Hdigit width text pad fits.
  assert (Hpad : (width <= length pad)%nat).
  { destruct (word_padding_long_or_empty word width) as [Hlong | Hempty];
      [exact Hlong |].
    destruct word as [| c word]; [congruence |].
    apply (f_equal length) in Hempty.
    rewrite length_concat_replicate in Hempty. simpl in Hempty.
    subst width. nia. }
  split.
  - intros [Hrepeat Hjoin].
    exists (last_units width (pad ++ text)).
    split.
    { rewrite toWordPadding_normal by (right; assumption).
      rewrite String_slice_last by lia. reflexivity. }
    split.
    { apply last_units_length. rewrite length_app. lia. }
    split.
    + intros Hshort. apply last_units_app_short; lia.
    + intros Hlong. now apply last_units_app_long.
  - intros Hover. apply toWordPadding_throws; fold width pad text.
    { intros Hempty. rewrite Hempty in Hpad. simpl in Hpad. lia. }
    destruct (Z_lt_le_dec max_string_length (Z.of_nat (length pad)))
      as [Hrepeat | Hrepeat]; [now left | right].
    assert (Htext : text ≠ []).
    { intros Htext. apply Hover. split; [exact Hrepeat | now left]. }
    split; [exact Htext |].
    destruct (Z_lt_le_dec max_string_length
                (Z.of_nat (length pad) + Z.of_nat (length text)))
      as [Hjoin | Hjoin]; [exact Hjoin |].
    exfalso. apply Hover. split; [exact Hrepeat | now right].
Qed.

Lemma toWordPadding_width_witness :
  lit "ab" ≠ [] ∧ 3 <> 0
  ∧ toWordPadding V8_max_string_length decimal (IsNumber (safe 7)) 3
      (lit "ab") = Normal (lit "ab7")
  ∧ toWordPadding 6 decimal (IsNumber (safe 7)) 3 (lit "ab")
    = Throw RangeError.
Proof.
  assert (Hword : lit "ab" ≠ []) by discriminate.
  assert (Hdigit : 3 <> 0) by lia.
  split; [exact Hword |]. split; [exact Hdigit |]. split.
  - destruct (proj1 (toWordPadding_width V8_max_string_length decimal
                       (IsNumber (safe 7)) 3 (lit "ab") Hword Hdigit))
      as (result & Hrun & _ & Hshort & _).
    { vm_compute. split; [| right]; discriminate. }
    rewrite Hrun. f_equal. apply Hshort. simpl. lia.
  - apply (proj2 (toWordPadding_width 6 decimal (IsNumber (safe 7)) 3
                    (lit "ab") Hword Hdigit)).
    vm_compute. intros [_ [Hempty | Hjoin]];
      [discriminate Hempty | now apply Hjoin].
Defined.

(** X2: with a word of one code unit [toWordPadding] fills a rendering
    that is not wider than the width with that unit on the left, when the
    width and the length of the rendering together are within the limit
    of the engine on the length of a string; and with the word ["0"] it is
    [toZeroPadding], for every [digit]. *)
Theorem toWordPadding_unit_word {number : Type} (max_string_length : Z)
    (number_toString : number -> jsstring)
    (v : string_or_number number) (digit : Z) (c : code_unit) :
  let width := Z.to_nat (Z.abs digit) in
  let text := rendering number_toString v in
  ((length text <= width)%nat ->
   Z.abs digit + Z.of_nat (length text) <= max_string_length ->
   toWordPadding max_string_length number_toString v digit [c]
   = Normal (replicate (width - length text) c ++ text))
  ∧ toWordPadding max_string_length number_toString v digit (lit "0")
    = toZeroPadding max_string_length number_toString v digit.
Proof.
  intros width text. split; [| reflexivity].
  intros Hshort Hfits.
  rewrite toWordPadding_normal.
  2:{ right. rewrite length_concat_replicate. simpl. lia. }
  2:{ right; right. rewrite length_concat_replicate. fold text. simpl. lia. }
  rewrite concat_replicate_unit. fold width text. f_equal.
  destruct (Z.eq_dec digit 0) as [-> | Hdigit].
  - clearbody text. subst width.
    change (Z.to_nat (Z.abs 0)) with 0%nat in *.
    destruct text; [reflexivity | simpl in Hshort; lia].
  - rewrite String_slice_last by lia. fold width.
    rewrite last_units_app_short by (rewrite ?length_replicate; lia).
    now rewrite last_units_replicate by lia.
Qed.

Lemma toWordPadding_unit_word_witness :
  (length (rendering decimal (IsNumber (safe 42%Z)))
   <= Z.to_nat (Z.abs (-5)))%nat
  ∧ Z.abs (-5) + Z.of_nat (length (rendering decimal (IsNumber (safe 42))))
    <= V8_max_string_length
  ∧ toWordPadding V8_max_string_length decimal (IsNumber (safe 42)) (-5)
      (lit "*") = Normal (lit "***42").
Proof.
  assert (Hshort : (length (rendering decimal (IsNumber (safe 42%Z)))
                    <= Z.to_nat (Z.abs (-5)))%nat) by (simpl; lia).
  assert (Hfits : Z.abs (-5)
                  + Z.of_nat (length (rendering decimal (IsNumber (safe 42))))
                  <= V8_max_string_length) by (vm_compute; discriminate).
  split; [exact Hshort |]. split; [exact Hfits |].
  exact (proj1 (toWordPadding_unit_word V8_max_string_length decimal
                  (IsNumber (safe 42)) (-5) 42%N) Hshort Hfits).
Defined.

(** X3: with the empty word [toWordPadding] pads nothing. The result is a
    suffix of the rendering: the rendering itself when it is not wider than
    the width (it stays shorter than the width) or when [digit] is zero,
    and its last [abs digit] code units otherwise. *)
Theorem toWordPadding_empty_word {number : Type} (max_string_length : Z)
    (number_toString : number -> jsstring)
    (v : string_or_number number) (digit : Z) :
  let width := Z.to_nat (Z.abs digit) in
  let text := rendering number_toString v in
  ∃ result,
    toWordPadding max_string_length number_toString v digit [] = Normal result
    ∧ result `suffix_of` text
    ∧ ((length text <= width)%nat ∨ digit = 0 -> result = text)
    ∧ (digit <> 0 -> (width <= length text)%nat ->
       result = last_units width text ∧ length result = width).
Proof.
  intros width text.
  rewrite toWordPadding_normal by (left; apply concat_replicate_nil).
  fold width text. rewrite concat_replicate_nil. simpl.
  destruct (Z.eq_dec digit 0) as [-> | Hdigit].
  - exists text. simpl. rewrite String_slice_zero.
    split; [reflexivity |]. split; [reflexivity |].
    split; [reflexivity | intros Hne; congruence].
  - exists (last_units width text).
    rewrite String_slice_last by lia. fold width.
    split; [reflexivity |]. split; [apply last_units_suffix |].
    split.
    + intros [Hshort | Hzero]; [now apply last_units_all | congruence].
    + intros _ Hlong. split; [reflexivity | now apply last_units_length].
Qed.

Lemma toWordPadding_empty_word_witness :
  (length (rendering decimal (IsNumber (safe 7%Z)))
   <= Z.to_nat (Z.abs 3))%nat
  ∧ toWordPadding V8_max_string_length decimal (IsNumber (safe 7)) 3 []
    = Normal (lit "7").
Proof.
  assert (Hshort : (length (rendering decimal (IsNumber (safe 7%Z)))
                    <= Z.to_nat (Z.abs 3))%nat) by (simpl; lia).
  split; [exact Hshort |].
  destruct (toWordPadding_empty_word V8_max_string_length decimal
              (IsNumber (safe 7)) 3) as (result & Hrun & _ & Hwhole & _).
  rewrite Hrun. f_equal. apply Hwhole. left. exact Hshort.
Defined.

Lemma padded_again (word text : jsstring) (digit : Z) :
  let pad := concat (replicate (Z.to_nat (Z.abs digit)) word) in
  String_slice (pad ++ String_slice (pad ++ text) (- Z.abs digit))
    (- Z.abs digit)
  = String_slice (pad ++ text) (- Z.abs digit).
Proof.
  intros pad. destruct (Z.eq_dec digit 0) as [-> | Hdigit].
  - subst pad. simpl. now rewrite !String_slice_zero.
  - rewrite !String_slice_last by lia.
    apply last_units_padded_again, word_padding_long_or_empty.
Qed.

Lemma toWordPadding_again {number : Type} (max : Z)
    (number_toString : number -> jsstring)
    (v : string_or_number number) (digit : Z) (word : jsstring) :
  Z.abs digit * (Z.of_nat (length word) + 1) <= max ->
  (result ← toWordPadding max number_toString v digit word;
   toWordPadding max number_toString (IsString result) digit word)
  = toWordPadding max number_toString v digit word.
Proof.
  intros Hmax.
  destruct (toWordPadding max number_toString v digit word)
    as [result | e] eqn:Hrun; [| reflexivity].
  cbn [mbind completion_bind].
  apply toWordPadding_Normal in Hrun as [Hrepeat ->].
  set (pad := concat (replicate (Z.to_nat (Z.abs digit)) word)) in *.
  set (text := rendering number_toString v).
  rewrite toWordPadding_unfold, Hrepeat. cbn [mbind completion_bind rendering].
  rewrite String_concat_fits.
  - cbn [mbind completion_bind]. unfold mret, completion_ret. f_equal.
    apply padded_again.
  - destruct (Z.eq_dec digit 0) as [-> | Hdigit]; [now left |].
    right. right. rewrite String_slice_last by lia.
    pose proof (last_units_at_most (Z.to_nat (Z.abs digit)) (pad ++ text)).
    subst pad. rewrite length_concat_replicate. nia.
Qed.

(** X4: padding is idempotent within the limit of the engine on the length
    of a string. When twice [abs digit] is within the limit, passing the
    result of [toZeroPadding] through it again with the same [digit] gives
    that result back (or the same error); so does [toWordPadding] with the
    same [digit] and word, when [abs digit] times the length of the word
    plus one is within the limit. *)
Theorem padding_idempotent {number : Type} (max_string_length : Z)
    (number_toString : number -> jsstring)
    (v : string_or_number number) (digit : Z) (word : jsstring) :
  (2 * Z.abs digit <= max_string_length ->
   (result ← toZeroPadding max_string_length number_toString v digit;
    toZeroPadding max_string_length number_toString (IsString result) digit)
   = toZeroPadding max_string_length number_toString v digit)
  ∧ (Z.abs digit * (Z.of_nat (length word) + 1) <= max_string_length ->
     (result ← toWordPadding max_string_length number_toString v digit word;
      toWordPadding max_string_length number_toString (IsString result)
        digit word)
     = toWordPadding max_string_length number_toString v digit word).
Proof.
  split.
  - intros Hmax.
    apply (toWordPadding_again max_string_length number_toString v digit
             (lit "0")). simpl. lia.
  - apply toWordPadding_again.
Qed.

Lemma padding_idempotent_witness :
  2 * Z.abs 3 <= V8_max_string_length
  ∧ (result ← toZeroPadding V8_max_string_length decimal
                (IsNumber (safe 12345)) 3;
     toZeroPadding V8_max_string_length decimal (IsString result) 3)
    = Normal (lit "345").
Proof.
  assert (Hmax : 2 * Z.abs 3 <= V8_max_string_length)
    by (vm_compute; discriminate).
  split; [exact Hmax |].
  rewrite (proj1 (padding_idempotent V8_max_string_length decimal
                    (IsNumber (safe 12345)) 3 []) Hmax).
  reflexivity.
Defined.

(** X5: zero padding composes within the limit of the engine on the
    length of a string. When the first width with the length of the
    rendering, and the two widths together, are within the limit: padding
    to a width and then to a narrower one (not zero) gives what padding to
    the narrower width gives; padding a rendering to a width that holds it
    and then to a wider one gives what padding to the wider width gives. *)
Theorem toZeroPadding_twice {number : Type} (max_string_length : Z)
    (number_toString : number -> jsstring)
    (v : string_or_number number) (first second : Z) :
  let text := rendering number_toString v in
  Z.abs first + Z.of_nat (length text) <= max_string_length ->
  Z.abs first + Z.abs second <= max_string_length ->
  (second <> 0 ∧ Z.abs second <= Z.abs first
   ∨ Z.of_nat (length text) <= Z.abs first <= Z.abs second) ->
  (result ← toZeroPadding max_string_length number_toString v first;
   toZeroPadding max_string_length number_toString (IsString result) second)
  = toZeroPadding max_string_length number_toString v second.
Proof.
  intros text Hfirst Hboth Hwidths.
  rewrite (toZeroPadding_normal _ number_toString v first)
    by (fold text; lia || (right; lia)).
  cbn [mbind completion_bind].
  rewrite (toZeroPadding_normal _ number_toString v second)
    by (fold text; lia || (right; lia)).
  fold text.
  set (m := Z.to_nat (Z.abs first)). set (n := Z.to_nat (Z.abs second)).
  destruct (Z.eq_dec first 0) as [-> | Hnonzero].
  { subst m. change (Z.to_nat (Z.abs 0)) with 0%nat.
    change (- Z.abs 0) with 0. cbn [replicate app].
    rewrite String_slice_zero.
    rewrite toZeroPadding_normal by (cbn [rendering]; lia || (right; lia)).
    reflexivity. }
  rewrite (String_slice_last _ (Z.abs first)) by lia. fold m.
  assert (Hlen : (length (last_units m (replicate m 48%N ++ text)) <= m)%nat)
    by apply last_units_at_most.
  rewrite toZeroPadding_normal by (cbn [rendering]; lia || (right; lia)).
  cbn [rendering]. f_equal. fold n.
  destruct (Z.eq_dec second 0) as [-> | Hsecond]; [lia |].
  rewrite !(String_slice_last _ (Z.abs second)) by lia. fold n.
  assert (Hcases : (n <= m)%nat ∨ (length text <= m <= n)%nat) by lia.
  clear Hwidths Hlen. destruct Hcases as [Hnarrow | Hwide].
  - rewrite (last_units_app_long n (replicate n 48%N)).
    2:{ rewrite last_units_length; [lia |].
        rewrite length_app, length_replicate. lia. }
    rewrite last_units_narrow by exact Hnarrow.
    destruct (Nat.le_gt_cases n (length text)) as [Hlong | Hshort].
    + now rewrite !last_units_app_long by exact Hlong.
    + rewrite !last_units_app_short by (rewrite ?length_replicate; lia).
      now rewrite !last_units_replicate by lia.
  - rewrite (last_units_app_short m) by (rewrite ?length_replicate; lia).
    rewrite last_units_replicate by lia.
    rewrite !last_units_app_short
      by (rewrite ?length_app, ?length_replicate; lia).
    rewrite !last_units_replicate
      by (rewrite ?length_app, ?length_replicate; lia).
    rewrite length_app, length_replicate, app_assoc, <- replicate_add.
    do 2 f_equal. lia.
Qed.

Lemma toZeroPadding_twice_witness :
  Z.abs 5 + Z.of_nat (length (rendering decimal (IsNumber (safe 12345))))
    <= V8_max_string_length
  ∧ Z.abs 5 + Z.abs 2 <= V8_max_string_length
  ∧ (2 <> 0 ∧ Z.abs 2 <= Z.abs 5
     ∨ Z.of_nat (length (rendering decimal (IsNumber (safe 12345))))
       <= Z.abs 5 <= Z.abs 2)
  ∧ (result ← toZeroPadding V8_max_string_length decimal
                (IsNumber (safe 12345)) 5;
     toZeroPadding V8_max_string_length decimal (IsString result) 2)
    = Normal (lit "45").
Proof.
  assert (Hfirst : Z.abs 5
            + Z.of_nat (length (rendering decimal (IsNumber (safe 12345))))
            <= V8_max_string_length) by (vm_compute; discriminate).
  assert (Hboth : Z.abs 5 + Z.abs 2 <= V8_max_string_length)
    by (vm_compute; discriminate).
  assert (Hwidths : 2 <> 0 ∧ Z.abs 2 <= Z.abs 5
            ∨ Z.of_nat (length (rendering decimal (IsNumber (safe 12345))))
              <= Z.abs 5 <= Z.abs 2) by (left; simpl; lia).
  split; [exact Hfirst |]. split; [exact Hboth |]. split; [exact Hwidths |].
  rewrite (toZeroPadding_twice V8_max_string_length decimal
             (IsNumber (safe 12345)) 5 2 Hfirst Hboth Hwidths).
  reflexivity.
Defined.

(** ** ArrayActions *)

Section SwapFacts.
Context {T : Type}.
Implicit Types (w : array_world T) (array : ref) (a : list (element T)).

(** The two methods on neighbours that are both inside the array: moving
    the element at [S i] up and moving the one at [i] down store the same
    contents. *)
Lemma swapDown_neighbours w array a (i : nat) (x y : element T) :
  arrays w !! array = Some a -> a !! i = Some x -> a !! S i = Some y ->
  swapDown array (Z.of_nat i) w =
  (Normal array,
   {| arrays := <[array := <[i := y]> (<[S i := x]> a)]> (arrays w);
      array_console := array_console w ++ [Z.of_nat (length a)] |}).
Proof.
  intros Ha Hx Hy.
  assert (Hlen : (S i < length a)%nat) by (now apply lookup_lt_Some in Hy).
  rewrite (swapDown_run w array a (Z.of_nat i) Ha) by lia.
  rewrite (Array_get_lookup a (Z.of_nat i) x),
    (Array_get_lookup a (Z.of_nat i + 1) y);
    rewrite ?Nat2Z.id; try lia; try assumption;
    [| replace (Z.to_nat (Z.of_nat i + 1)) with (S i) by lia; assumption].
  rewrite (Array_splice_exchange a (Z.of_nat i) x y);
    rewrite ?Nat2Z.id; try lia; try assumption;
    [| replace (Z.to_nat (Z.of_nat i + 1)) with (S i) by lia; assumption].
  replace (Z.to_nat (Z.of_nat i + 1)) with (S i) by lia. reflexivity.
Qed.

Lemma swapUp_neighbours w array a (i : nat) (x y : element T) :
  arrays w !! array = Some a -> a !! i = Some x -> a !! S i = Some y ->
  swapUp array (Z.of_nat (S i)) w =
  (Normal array,
   {| arrays := <[array := <[i := y]> (<[S i := x]> a)]> (arrays w);
      array_console := array_console w |}).
Proof.
  intros Ha Hx Hy.
  rewrite (swapUp_run w array a (Z.of_nat (S i)) Ha) by lia.
  replace (Z.of_nat (S i) - 1) with (Z.of_nat i) by lia.
  rewrite (Array_get_lookup a (Z.of_nat i) x),
    (Array_get_lookup a (Z.of_nat (S i)) y);
    rewrite ?Nat2Z.id; try lia; try assumption.
  rewrite (Array_splice_exchange a (Z.of_nat i) x y);
    rewrite ?Nat2Z.id; try lia; try assumption;
    [| replace (Z.to_nat (Z.of_nat i + 1)) with (S i) by lia; assumption].
  replace (Z.to_nat (Z.of_nat i + 1)) with (S i) by lia. reflexivity.
Qed.

Lemma exchanged_permutation a (i : nat) (x y : element T) :
  a !! i = Some x -> a !! S i = Some y ->
  <[i := y]> (<[S i := x]> a) ≡ₚ a.
Proof.
  intros Hx Hy. rewrite <- (exchange_neighbours a i x y Hx Hy).
  rewrite <- (take_drop_middle a i x Hx) at 3.
  rewrite (drop_S a y (S i) Hy).
  apply Permutation_app_head. simpl. apply perm_swap.
Qed.

Lemma exchanged_twice a (i : nat) (x y : element T) :
  a !! i = Some x -> a !! S i = Some y ->
  <[i := x]> (<[S i := y]> (<[i := y]> (<[S i := x]> a))) = a.
Proof.
  intros Hx Hy.
  rewrite (list_insert_insert_ne _ (S i) i) by lia.
  rewrite list_insert_insert_eq, list_insert_insert_eq.
  rewrite (list_insert_id a (S i) y Hy). now apply list_insert_id.
Qed.

(** The neighbours of an in-range index, as the lemmas above want them. *)
Lemma neighbours_inside a (index : Z) :
  0 <= index < Z.of_nat (length a) - 1 ->
  ∃ (i : nat) (x y : element T),
    index = Z.of_nat i ∧ a !! i = Some x ∧ a !! S i = Some y.
Proof.
  intros Hindex.
  destruct (lookup_lt_is_Some_2 a (Z.to_nat index)) as [x Hx]; [lia |].
  destruct (lookup_lt_is_Some_2 a (S (Z.to_nat index))) as [y Hy]; [lia |].
  exists (Z.to_nat index), x, y. split; [lia | now split].
Qed.
End SwapFacts.

(** X6: [swapDown] never loses or duplicates an element: for every index
    the contents it leaves are a permutation of the contents it found. The
    same holds of [swapUp] for every index below the length. *)
Theorem swaps_permute {T : Type} (w : array_world T) (array : ref)
    (a : list (element T)) (index : Z) :
  arrays w !! array = Some a ->
  (∃ a', arrays (snd (swapDown array index w)) !! array = Some a'
         ∧ a' ≡ₚ a)
  ∧ (index < Z.of_nat (length a) ->
     ∃ a', arrays (snd (swapUp array index w)) !! array = Some a'
           ∧ a' ≡ₚ a).
Proof.
  intros Ha. split.
  - destruct (Z_lt_le_dec index 0) as [Hneg | Hpos];
      [| destruct (Z_le_gt_dec (Z.of_nat (length a) - 1) index) as [Hend | Hin]].
    + rewrite (swapDown_outside w array a index Ha) by lia. now exists a.
    + rewrite (swapDown_outside w array a index Ha) by lia. now exists a.
    + destruct (neighbours_inside a index) as (i & x & y & -> & Hx & Hy);
        [lia |].
      rewrite (swapDown_neighbours w array a i x y Ha Hx Hy). simpl.
      eexists. split; [apply lookup_insert_eq |].
      now apply exchanged_permutation.
  - intros Hlen. destruct (Z_le_gt_dec index 0) as [Hneg | Hpos].
    + rewrite swapUp_not_positive by exact Hneg. now exists a.
    + destruct (neighbours_inside a (index - 1)) as (i & x & y & Hi & Hx & Hy);
        [lia |].
      replace index with (Z.of_nat (S i)) by lia.
      rewrite (swapUp_neighbours w array a i x y Ha Hx Hy). simpl.
      eexists. split; [apply lookup_insert_eq |].
      now apply exchanged_permutation.
Qed.

Lemma swaps_permute_witness :
  let w := {| arrays := {[ 1%positive := [Value 10; Value 20; Value 30] ]};
              array_console := [] |} in
  arrays w !! 1%positive = Some [Value 10; Value 20; Value 30]
  ∧ 2 < Z.of_nat (length [Value 10; Value 20; Value 30])
  ∧ ∃ a', arrays (snd (swapUp 1%positive 2 w)) !! 1%positive = Some a'
          ∧ a' ≡ₚ [Value 10; Value 20; Value 30].
Proof.
  intros w.
  assert (Ha : arrays w !! 1%positive = Some [Value 10; Value 20; Value 30])
    by reflexivity.
  assert (Hlen : 2 < Z.of_nat (length [Value 10; Value 20; Value 30]))
    by (simpl; lia).
  split; [exact Ha |]. split; [exact Hlen |].
  exact (proj2 (swaps_permute w 1%positive _ 2 Ha) Hlen).
Defined.

(** X7: inside the array the two methods undo each other and themselves.
    After [swapDown] at [index], a [swapUp] at [index + 1] or a second
    [swapDown] at [index] restores every array of the store; so does
    [swapUp] at [index + 1] followed by [swapDown] at [index] or by a
    second [swapUp] at [index + 1]. *)
Theorem swaps_round_trip {T : Type} (w : array_world T) (array : ref)
    (a : list (element T)) (index : Z) :
  arrays w !! array = Some a ->
  0 <= index < Z.of_nat (length a) - 1 ->
  let undone (first second : M (array_world T) ref) :=
    ∃ w1 w2,
      first w = (Normal array, w1)
      ∧ second w1 = (Normal array, w2)
      ∧ arrays w2 = arrays w in
  undone (swapDown array index) (swapUp array (index + 1))
  ∧ undone (swapDown array index) (swapDown array index)
  ∧ undone (swapUp array (index + 1)) (swapDown array index)
  ∧ undone (swapUp array (index + 1)) (swapUp array (index + 1)).
Proof.
  intros Ha Hindex undone.
  destruct (neighbours_inside a index Hindex) as (i & x & y & -> & Hx & Hy).
  assert (Hlen : (S i < length a)%nat) by (now apply lookup_lt_Some in Hy).
  set (a' := <[i := y]> (<[S i := x]> a)).
  assert (Hy' : a' !! i = Some y).
  { subst a'. apply list_lookup_insert_eq. rewrite length_insert. lia. }
  assert (Hx' : a' !! S i = Some x).
  { subst a'. rewrite list_lookup_insert_ne by lia.
    apply list_lookup_insert_eq. lia. }
  assert (Hback : <[i := x]> (<[S i := y]> a') = a)
    by (now apply exchanged_twice).
  assert (Hstore : <[array := a]> (<[array := a']> (arrays w)) = arrays w).
  { rewrite insert_insert_eq. now apply insert_id. }
  replace (Z.of_nat i + 1) with (Z.of_nat (S i)) by lia.
  assert (Hdown := swapDown_neighbours w array a i x y Ha Hx Hy).
  assert (Hup := swapUp_neighbours w array a i x y Ha Hx Hy).
  subst undone. repeat split; do 2 eexists;
    (split; [first [exact Hdown | exact Hup] |]);
    (split;
     [ first [ apply (swapDown_neighbours _ array a' i y x)
             | apply (swapUp_neighbours _ array a' i y x) ];
       first [ apply lookup_insert_eq | assumption ]
     | simpl; rewrite Hback; exact Hstore ]).
Qed.

Lemma swaps_round_trip_witness :
  let w := {| arrays := {[ 1%positive := [Value 10; Value 20; Value 30] ]};
              array_console := [] |} in
  arrays w !! 1%positive = Some [Value 10; Value 20; Value 30]
  ∧ 0 <= 1 < Z.of_nat (length [Value 10; Value 20; Value 30]) - 1
  ∧ ∃ w1 w2,
      swapDown 1%positive 1 w = (Normal 1%positive, w1)
      ∧ swapUp 1%positive (1 + 1) w1 = (Normal 1%positive, w2)
      ∧ arrays w2 = arrays w.
Proof.
  intros w.
  assert (Ha : arrays w !! 1%positive = Some [Value 10; Value 20; Value 30])
    by reflexivity.
  assert (Hindex : 0 <= 1 < Z.of_nat (length [Value 10; Value 20; Value 30]) - 1)
    by (simpl; lia).
  split; [exact Ha |]. split; [exact Hindex |].
  exact (proj1 (swaps_round_trip w 1%positive _ 1 Ha Hindex)).
Defined.

(** X8: inside the array, moving the element at [index] up is moving the
    element before it down: [swapUp] at [index] and [swapDown] at
    [index - 1] leave the same store, and differ only in that [swapDown]
    writes the length of the array to the console. *)
Theorem swapUp_is_swapDown_before {T : Type} (w : array_world T)
    (array : ref) (a : list (element T)) (index : Z) :
  arrays w !! array = Some a ->
  0 < index < Z.of_nat (length a) ->
  ∃ store,
    swapUp array index w =
      (Normal array,
       {| arrays := store; array_console := array_console w |})
    ∧ swapDown array (index - 1) w =
      (Normal array,
       {| arrays := store;
          array_console := array_console w ++ [Z.of_nat (length a)] |}).
Proof.
  intros Ha Hindex.
  destruct (neighbours_inside a (index - 1)) as (i & x & y & Hi & Hx & Hy);
    [lia |].
  rewrite Hi. replace index with (Z.of_nat (S i)) by lia.
  eexists. split.
  - apply (swapUp_neighbours w array a i x y Ha Hx Hy).
  - apply (swapDown_neighbours w array a i x y Ha Hx Hy).
Qed.

Lemma swapUp_is_swapDown_before_witness :
  let w := {| arrays := {[ 1%positive := [Value 10; Value 20; Value 30] ]};
              array_console := [] |} in
  arrays w !! 1%positive = Some [Value 10; Value 20; Value 30]
  ∧ 0 < 2 < Z.of_nat (length [Value 10; Value 20; Value 30])
  ∧ ∃ store,
      swapUp 1%positive 2 w =
        (Normal 1%positive, {| arrays := store; array_console := [] |})
      ∧ swapDown 1%positive (2 - 1) w =
        (Normal 1%positive, {| arrays := store; array_console := [3] |}).
Proof.
  intros w.
  assert (Ha : arrays w !! 1%positive = Some [Value 10; Value 20; Value 30])
    by reflexivity.
  assert (Hindex : 0 < 2 < Z.of_nat (length [Value 10; Value 20; Value 30]))
    by (simpl; lia).
  split; [exact Ha |]. split; [exact Hindex |].
  exact (swapUp_is_swapDown_before w 1%positive _ 2 Ha Hindex).
Defined.

(** X9: for every index, both methods return the array they were given
    and touch no other array of the store: the array is still there, and
    every other reference holds what it held. [swapUp] never writes to the
    console. *)
Theorem swaps_frame {T : Type} (w : array_world T) (array : ref)
    (a : list (element T)) (index : Z) :
  arrays w !! array = Some a ->
  let framed (run : completion ref * array_world T) :=
    fst run = Normal array
    ∧ is_Some (arrays (snd run) !! array)
    ∧ ∀ other, other ≠ array ->
        arrays (snd run) !! other = arrays w !! other in
  framed (swapUp array index w)
  ∧ framed (swapDown array index w)
  ∧ array_console (snd (swapUp array index w)) = array_console w.
Proof.
  intros Ha framed.
  assert (Hsame : framed (Normal array, w)).
  { split; [reflexivity |]. split; [simpl; rewrite Ha; eauto | reflexivity]. }
  assert (Hupdated : ∀ a' out,
            framed (Normal array,
                    {| arrays := <[array := a']> (arrays w);
                       array_console := out |})).
  { intros a' out. split; [reflexivity |]. split; simpl.
    - rewrite lookup_insert_eq. eauto.
    - intros other Hother. now apply lookup_insert_ne. }
  assert (Hup : framed (swapUp array index w)
                ∧ array_console (snd (swapUp array index w))
                  = array_console w).
  { destruct (Z_le_gt_dec index 0) as [Hneg | Hpos].
    - rewrite swapUp_not_positive by exact Hneg. now split.
    - rewrite (swapUp_run w array a index Ha) by lia.
      split; [apply Hupdated | reflexivity]. }
  split; [apply Hup |]. split; [| apply Hup].
  destruct (Z_lt_le_dec index 0) as [Hneg | Hpos];
    [| destruct (Z_le_gt_dec (Z.of_nat (length a) - 1) index) as [Hend | Hin]].
  - now rewrite (swapDown_outside w array a index Ha) by lia.
  - now rewrite (swapDown_outside w array a index Ha) by lia.
  - rewrite (swapDown_run w array a index Ha) by lia. apply Hupdated.
Qed.

Lemma swaps_frame_witness :
  let w := {| arrays := {[ 1%positive := [Value 10; Value 20];
                           2%positive := [Value 30] ]};
              array_console := [] |} in
  arrays w !! 1%positive = Some [Value 10; Value 20]
  ∧ arrays (snd (swapUp 1%positive 5 w)) !! 2%positive = Some [Value 30]
  ∧ arrays (snd (swapDown 1%positive 0 w)) !! 2%positive = Some [Value 30].
Proof.
  intros w.
  assert (Ha : arrays w !! 1%positive = Some [Value 10; Value 20])
    by reflexivity.
  split; [exact Ha |].
  destruct (swaps_frame w 1%positive _ 5 Ha) as ((_ & _ & Hup) & _ & _).
  destruct (swaps_frame w 1%positive _ 0 Ha) as (_ & (_ & _ & Hdown) & _).
  split; [rewrite Hup | rewrite Hdown]; (reflexivity || discriminate).
Defined.

(** X10: [swapUp] at the end of the array or past it. With [index] equal
    to the length of a non-empty array an [undefined] is put before the
    last element; with a larger [index] two [undefined] are appended (to
    the empty array too). The elements that were there stay in order. *)
Theorem swapUp_outside {T : Type} (w : array_world T) (array : ref)
    (a : list (element T)) (index : Z) :
  arrays w !! array = Some a ->
  (∀ front last,
     a = front ++ [last] -> index = Z.of_nat (length a) ->
     swapUp array index w =
       (Normal array,
        {| arrays := <[array := front ++ [Undefined; last]]> (arrays w);
           array_console := array_console w |}))
  ∧ (Z.of_nat (length a) < index ->
     swapUp array index w =
       (Normal array,
        {| arrays := <[array := a ++ [Undefined; Undefined]]> (arrays w);
           array_console := array_console w |})).
Proof.
  intros Ha. split.
  - intros front last -> ->.
    rewrite length_app in *. simpl length in *.
    rewrite (swapUp_run w array _ _ Ha) by lia.
    rewrite Array_get_outside by (rewrite length_app; simpl; lia).
    rewrite (Array_get_lookup _ _ last);
      [| lia
       | replace (Z.to_nat (Z.of_nat (length front + 1) - 1))
           with (length front) by lia;
         rewrite lookup_app_r by lia; now rewrite Nat.sub_diag].
    unfold Array_splice. rewrite length_app. simpl length.
    destruct (Z.ltb_spec (Z.of_nat (length front + 1) - 1) 0); [lia |].
    rewrite Z.min_l by lia.
    replace (Z.to_nat (Z.of_nat (length front + 1) - 1))
      with (length front) by lia.
    rewrite take_app_length, drop_ge by (rewrite length_app; simpl; lia).
    now rewrite app_nil_r.
  - intros Hindex.
    rewrite (swapUp_run w array a index Ha) by lia.
    rewrite !Array_get_outside by lia.
    unfold Array_splice.
    destruct (Z.ltb_spec (index - 1) 0); [lia |].
    rewrite (Z.min_r (index - 1)) by lia.
    rewrite Nat2Z.id, take_ge, drop_ge by lia.
    now rewrite app_nil_r.
Qed.

Lemma swapUp_outside_witness :
  let w : array_world Z :=
    {| arrays := {[ 1%positive := [Value 10; Value 20] ]};
       array_console := [] |} in
  arrays w !! 1%positive = Some [Value 10; Value 20]
  ∧ 2 = Z.of_nat (length [Value 10; Value 20])
  ∧ Z.of_nat (length [Value 10; Value 20]) < 7
  ∧ swapUp 1%positive 2 w =
      (Normal 1%positive,
       {| arrays := <[1%positive := [Value 10; Undefined; Value 20]]>
                      (arrays w);
          array_console := [] |})
  ∧ swapUp 1%positive 7 w =
      (Normal 1%positive,
       {| arrays :=
            <[1%positive := [Value 10; Value 20; Undefined; Undefined]]>
              (arrays w);
          array_console := [] |}).
Proof.
  intros w.
  assert (Ha : arrays w !! 1%positive = Some [Value 10; Value 20])
    by reflexivity.
  assert (Hend : 2 = Z.of_nat (length [Value 10; Value 20])) by reflexivity.
  assert (Hpast : Z.of_nat (length [Value 10; Value 20]) < 7)
    by (simpl; lia).
  split; [exact Ha |]. split; [exact Hend |]. split; [exact Hpast |]. split.
  - exact (proj1 (swapUp_outside w 1%positive _ 2 Ha)
             [Value 10] (Value 20) eq_refl Hend).
  - exact (proj2 (swapUp_outside w 1%positive _ 7 Ha) Hpast).
Defined.

Lemma swapUp_inside_witness :
  let w := {| arrays := {[ 1%positive := [Value 10; Value 20; Value 30] ]};
              array_console := [] |} in
  arrays w !! 1%positive = Some [Value 10; Value 20; Value 30]
  ∧ 0 < 2 < Z.of_nat (length [Value 10; Value 20; Value 30])
  ∧ ∃ a',
      swapUp 1%positive 2 w =
        (Normal 1%positive,
         {| arrays := <[1%positive := a']> (arrays w);
            array_console := [] |})
      ∧ a' !! 0%nat = Some (Value 10)
      ∧ a' !! 1%nat = Some (Value 30)
      ∧ a' !! 2%nat = Some (Value 20).
Proof.
  intros w.
  assert (Ha : arrays w !! 1%positive = Some [Value 10; Value 20; Value 30])
    by reflexivity.
  assert (Hindex : 0 < 2 < Z.of_nat (length [Value 10; Value 20; Value 30]))
    by (simpl; lia).
  split; [exact Ha |]. split; [exact Hindex |].
  destruct (swapUp_inside w 1%positive _ 2 Ha Hindex)
    as (a' & Hrun & _ & H1 & H2 & Hothers).
  exists a'. split; [exact Hrun |]. split; [| split; [exact H1 | exact H2]].
  apply (Hothers 0%nat); discriminate.
Defined.

(** ** Pipe *)

Section PipeMoreFacts.
Context {T : Type}.
Implicit Types (w : pipe_world T) (this : ref) (fc : T -> T).

Lemma Pipe_chain_logged_run (fcs : list (T -> T)) :
  ∀ (p : M (pipe_world T) ref) w w1 this (x : T),
    p w = (Normal this, w1) ->
    pipes w1 !! this = Some x ->
    Pipe_chain_logged fcs p w =
    (Normal this,
     {| pipes := <[this := fold_left (λ x fc, fc x) fcs x]> (pipes w1);
        pipe_console := pipe_console w1 ++ held_values fcs x |}).
Proof.
  induction fcs as [| fc fcs IH]; intros p w w1 this x Hp Hx.
  - simpl. rewrite Hp, app_nil_r. destruct w1 as [store out]. simpl in *.
    now rewrite insert_id.
  - unfold Pipe_chain_logged. cbn [fold_left].
    fold (Pipe_chain_logged fcs
            (this ← p; this' ← Pipe_to fc this; Pipe_log this')).
    rewrite (IH _ w
               {| pipes := <[this := fc x]> (pipes w1);
                  pipe_console := pipe_console w1 ++ [fc x] |} this (fc x)).
    + simpl. now rewrite insert_insert_eq, <- app_assoc.
    + unfold mbind at 1. unfold M_bind at 1. rewrite Hp.
      unfold mbind at 1. unfold M_bind at 1.
      rewrite (Pipe_to_run fc this w1 x Hx).
      rewrite (Pipe_log_run this _ (fc x)) by (simpl; apply lookup_insert_eq).
      reflexivity.
    + simpl. apply lookup_insert_eq.
Qed.
End PipeMoreFacts.

(** X12: [log] is transparent. A chain with a [log] after every [to]
    returns what the chain without them returns; the console receives the
    values the pipe held after each [to], in order, where the plain chain
    leaves the console as it was. *)
Theorem Pipe_chain_logged_exit {T : Type} (v : T) (fcs : list (T -> T))
    (w : pipe_world T) :
  ∃ logged plain,
    (this ← Pipe_chain_logged fcs (Pipe_new v); Pipe_exit this) w
      = (Normal (fold_left (λ x fc, fc x) fcs v), logged)
    ∧ (this ← Pipe_chain fcs (Pipe_new v); Pipe_exit this) w
      = (Normal (fold_left (λ x fc, fc x) fcs v), plain)
    ∧ pipe_console logged = pipe_console w ++ held_values fcs v
    ∧ pipe_console plain = pipe_console w
    ∧ pipes logged = pipes plain.
Proof.
  do 2 eexists. split; [| split].
  - unfold mbind at 1. unfold M_bind.
    rewrite (Pipe_chain_logged_run fcs (Pipe_new v) w _ _ v
               (Pipe_new_run v w)) by (simpl; apply lookup_insert_eq).
    apply Pipe_exit_run. simpl. apply lookup_insert_eq.
  - unfold mbind at 1. unfold M_bind.
    rewrite (Pipe_chain_run fcs (Pipe_new v) w _ _ v (Pipe_new_run v w))
      by (simpl; apply lookup_insert_eq).
    apply Pipe_exit_run. simpl. apply lookup_insert_eq.
  - repeat split; reflexivity.
Qed.

(** X13: two chained [to] are one [to] of the composition: after any
    computation that yields a pipe, [.to(f).to(g)] and
    [.to(x => g(f(x)))] give the same result and the same store. *)
Theorem Pipe_to_fusion {T : Type} (p : M (pipe_world T) ref)
    (f g : T -> T) (w : pipe_world T) :
  (this ← (this ← p; Pipe_to f this); Pipe_to g this) w
  = (this ← p; Pipe_to (λ x, g (f x)) this) w.
Proof.
  unfold mbind, M_bind. destruct (p w) as [[this | e] w1]; [| reflexivity].
  unfold Pipe_to, mbind, M_bind, pipe_field, pipe_assign, mret, M_ret.
  destruct (pipes w1 !! this) as [x |] eqn:Hx; [| reflexivity].
  simpl. rewrite lookup_insert_eq. simpl. now rewrite insert_insert_eq.
Qed.

(** X14: two pipes are two objects. Of two pipes built one after the
    other the references differ, and chaining [to] on the first leaves the
    value of the second as it was: [exit] on the first returns the
    functions applied in turn, [exit] on the second its initial value. *)
Theorem Pipe_independent {T : Type} (a b : T) (fcs : list (T -> T))
    (w : pipe_world T) :
  ∃ p1 p2 w1 w2 w3,
    Pipe_new a w = (Normal p1, w1)
    ∧ Pipe_new b w1 = (Normal p2, w2)
    ∧ p1 ≠ p2
    ∧ Pipe_chain fcs (mret p1) w2 = (Normal p1, w3)
    ∧ Pipe_exit p1 w3 = (Normal (fold_left (λ x fc, fc x) fcs a), w3)
    ∧ Pipe_exit p2 w3 = (Normal b, w3).
Proof.
  set (p1 := fresh (dom (pipes w))).
  set (w1 := {| pipes := <[p1 := a]> (pipes w);
                pipe_console := pipe_console w |}).
  set (p2 := fresh (dom (pipes w1))).
  set (w2 := {| pipes := <[p2 := b]> (pipes w1);
                pipe_console := pipe_console w1 |}).
  assert (Hne : p1 ≠ p2).
  { intros Heq. apply (is_fresh (dom (pipes w1))). fold p2. rewrite <- Heq.
    subst w1. simpl. rewrite dom_insert_L. set_solver. }
  assert (H1 : pipes w2 !! p1 = Some a).
  { subst w2 w1. simpl. rewrite lookup_insert_ne by congruence.
    apply lookup_insert_eq. }
  exists p1, p2, w1, w2. eexists.
  split; [reflexivity |]. split; [reflexivity |]. split; [exact Hne |].
  split; [apply (Pipe_chain_run fcs (mret p1) w2 w2 p1 a eq_refl H1) |].
  split.
  - apply Pipe_exit_run. simpl. apply lookup_insert_eq.
  - apply Pipe_exit_run. simpl. rewrite lookup_insert_ne by congruence.
    apply lookup_insert_eq.
Qed.

(** ** Digest encoder *)

Lemma unsigned_signed_byte (v : Z) :
  0 <= v <= 255 ->
  -128 <= signed_byte v <= 127 ∧ unsigned_byte (signed_byte v) = v.
Proof.
  intros Hv. unfold unsigned_byte, signed_byte.
  destruct (Z.leb_spec 128 v); [destruct (Z.ltb_spec (v - 256) 0)
                               | destruct (Z.ltb_spec v 0)]; lia.
Qed.

Lemma hex_digit_zero (d : Z) : 0 <= d < 16 -> hex_digit d = 48%N -> d = 0.
Proof.
  intros Hd.
  assert (Hcases : d = 0 ∨ d = 1 ∨ d = 2 ∨ d = 3 ∨ d = 4 ∨ d = 5 ∨ d = 6
                   ∨ d = 7 ∨ d = 8 ∨ d = 9 ∨ d = 10 ∨ d = 11 ∨ d = 12
                   ∨ d = 13 ∨ d = 14 ∨ d = 15) by lia.
  repeat (destruct Hcases as [-> | Hcases]; [vm_compute; congruence |]).
  subst d. vm_compute. congruence.
Qed.

Lemma hex_unpadded_strips (v : Z) :
  0 <= v <= 255 -> hex_unpadded v = strip_leading_zero (hex_padded v).
Proof.
  intros Hv. unfold hex_unpadded, hex_padded.
  destruct (Z.ltb_spec v 16) as [Hsmall | Hbig].
  - rewrite Z.div_small, Z.mod_small by lia. reflexivity.
  - assert (Hq : 1 <= v / 16 < 16)
      by (Z.to_euclidean_division_equations; lia).
    unfold strip_leading_zero.
    destruct (N.eqb_spec (hex_digit (v / 16)) 48) as [Hzero | _];
      [| reflexivity].
    apply hex_digit_zero in Hzero; lia.
Qed.

Lemma rendering_lengths (bytes : list Z) :
  let total :=
    sum_list ((λ b, if unsigned_byte b <? 16 then 1%nat else 2%nat)
                <$> bytes) in
  let small := length (filter (λ b, unsigned_byte b < 16) bytes) in
  (total + small = 2 * length bytes)%nat
  ∧ (small <= length bytes)%nat
  ∧ (small = 0%nat ↔ Forall (λ b, 16 <= unsigned_byte b) bytes).
Proof.
  induction bytes as [| b bytes (IHsum & IHle & IHall)];
    [repeat split; auto; constructor |].
  cbn zeta in *. rewrite fmap_cons, filter_cons. cbn [sum_list_with].
  unfold id in *.
  destruct (Z.ltb_spec (unsigned_byte b) 16) as [Hsmall | Hbig].
  - rewrite decide_True by exact Hsmall. cbn [length].
    split; [lia |]. split; [lia |]. split; [discriminate |].
    intros Hall. apply Forall_cons_1 in Hall as [Hb _]. lia.
  - rewrite decide_False by lia. cbn [length].
    split; [lia |]. split; [lia |]. rewrite IHall. split.
    + intros Hall. now apply Forall_cons_2.
    + intros Hall. now apply Forall_cons_1 in Hall as [_ Hall].
Qed.

(** X15: the hash key of a 16-byte digest has between 16 and 32 code
    units: 32 less one for every byte whose unsigned value is below
    sixteen. It has all 32 exactly when no byte is below sixteen. *)
Theorem createMD5HashKey_length_bounds (computeDigest : jsstring -> list Z)
    (text : jsstring) :
  length (computeDigest text) = 16%nat ->
  Forall (λ b, -128 <= b <= 127) (computeDigest text) ->
  let key := createMD5HashKey computeDigest text in
  let small :=
    length (filter (λ b, unsigned_byte b < 16) (computeDigest text)) in
  (length key + small = 32)%nat
  ∧ (16 <= length key <= 32)%nat
  ∧ (length key = 32%nat
     ↔ Forall (λ b, 16 <= unsigned_byte b) (computeDigest text)).
Proof.
  intros Hlen Hbytes key small.
  destruct (rendering_lengths (computeDigest text)) as (Hsum & Hle & Hall).
  cbn zeta in *. fold small in Hsum, Hle, Hall.
  assert (Hkey := createMD5HashKey_length computeDigest text Hbytes).
  fold key in Hkey. rewrite <- Hkey, Hlen in *.
  split; [lia |]. split; [lia |]. rewrite <- Hall. lia.
Qed.

Lemma createMD5HashKey_length_bounds_witness :
  length (computeDigest_MD5_UTF_8 (lit "a")) = 16%nat
  ∧ Forall (λ b, -128 <= b <= 127) (computeDigest_MD5_UTF_8 (lit "a"))
  ∧ (length (createMD5HashKey computeDigest_MD5_UTF_8 (lit "a"))
     + length (filter (λ b, (unsigned_byte b < 16)%Z)
                 (computeDigest_MD5_UTF_8 (lit "a"))) = 32)%nat
  ∧ length (createMD5HashKey computeDigest_MD5_UTF_8 (lit "a")) = 31%nat.
Proof.
  assert (Hlen : length (computeDigest_MD5_UTF_8 (lit "a")) = 16%nat)
    by (vm_compute; reflexivity).
  assert (Hbytes : Forall (λ b, -128 <= b <= 127)
                     (computeDigest_MD5_UTF_8 (lit "a")))
    by (vm_compute; repeat (apply Forall_cons_2; [split; discriminate |]);
        apply Forall_nil_2).
  split; [exact Hlen |]. split; [exact Hbytes |]. split.
  - exact (proj1 (createMD5HashKey_length_bounds computeDigest_MD5_UTF_8
                    (lit "a") Hlen Hbytes)).
  - vm_compute. reflexivity.
Defined.

(** X16: the hash key does not determine the digest. A digest that
    starts with the bytes [0x0h, 0xpq] and one that starts with
    [0xhp, 0x0q] and goes on in the same way ([h] and [p] not zero) are
    different and have the same hash key. *)
Theorem createMD5HashKey_ambiguous (computeDigest : jsstring -> list Z)
    (text1 text2 : jsstring) (h p q : Z) (rest : list Z) :
  1 <= h <= 15 -> 1 <= p <= 15 -> 0 <= q <= 15 ->
  Forall (λ b, -128 <= b <= 127) rest ->
  computeDigest text1 = signed_byte h :: signed_byte (16 * p + q) :: rest ->
  computeDigest text2 = signed_byte (16 * h + p) :: signed_byte q :: rest ->
  computeDigest text1 ≠ computeDigest text2
  ∧ createMD5HashKey computeDigest text1
    = createMD5HashKey computeDigest text2.
Proof.
  intros Hh Hp Hq Hrest Hd1 Hd2.
  destruct (unsigned_signed_byte h) as [Hh1 Hh2]; [lia |].
  destruct (unsigned_signed_byte (16 * p + q)) as [Hpq1 Hpq2]; [lia |].
  destruct (unsigned_signed_byte (16 * h + p)) as [Hhp1 Hhp2]; [lia |].
  destruct (unsigned_signed_byte q) as [Hq1 Hq2]; [lia |].
  split.
  - rewrite Hd1, Hd2. intros [= Hhead _].
    apply (f_equal unsigned_byte) in Hhead. rewrite Hh2, Hhp2 in Hhead. lia.
  - rewrite !createMD5HashKey_unfold
      by (rewrite ?Hd1, ?Hd2; repeat apply Forall_cons_2; assumption).
    rewrite Hd1, Hd2, !fmap_cons. cbn [concat].
    rewrite Hh2, Hpq2, Hhp2, Hq2, !app_assoc. f_equal.
    unfold hex_unpadded.
    destruct (Z.ltb_spec h 16); [| lia].
    destruct (Z.ltb_spec (16 * p + q) 16); [lia |].
    destruct (Z.ltb_spec (16 * h + p) 16); [lia |].
    destruct (Z.ltb_spec q 16); [| lia].
    replace ((16 * p + q) / 16) with p
      by (Z.to_euclidean_division_equations; lia).
    replace ((16 * p + q) mod 16) with q
      by (Z.to_euclidean_division_equations; lia).
    replace ((16 * h + p) / 16) with h
      by (Z.to_euclidean_division_equations; lia).
    replace ((16 * h + p) mod 16) with p
      by (Z.to_euclidean_division_equations; lia).
    reflexivity.
Qed.

Lemma createMD5HashKey_ambiguous_witness :
  let computeDigest (text : jsstring) :=
    if decide (text = lit "a")
    then signed_byte 1 :: signed_byte (16 * 2 + 3) :: replicate 14 0
    else signed_byte (16 * 1 + 2) :: signed_byte 3 :: replicate 14 0 in
  computeDigest (lit "a") = [1; 35; 0; 0; 0; 0; 0; 0; 0; 0; 0; 0; 0; 0; 0; 0]
  ∧ computeDigest (lit "b")
    = [18; 3; 0; 0; 0; 0; 0; 0; 0; 0; 0; 0; 0; 0; 0; 0]
  ∧ createMD5HashKey computeDigest (lit "a")
    = createMD5HashKey computeDigest (lit "b").
Proof.
  intros computeDigest.
  split; [reflexivity |]. split; [reflexivity |].
  refine (proj2 (createMD5HashKey_ambiguous computeDigest (lit "a") (lit "b")
                   1 2 3 (replicate 14 0) _ _ _ _ eq_refl eq_refl));
    try lia.
  repeat (apply Forall_cons_2; [lia |]). apply Forall_nil_2.
Defined.

(** X17: the hash key is the standard rendering of the digest, two
    lowercase hexadecimal digits a byte, with the leading zero of every
    byte below sixteen left out. When no byte is below sixteen it is the
    standard rendering itself, 32 digits for a 16-byte digest. *)
Theorem createMD5HashKey_standard (computeDigest : jsstring -> list Z)
    (text : jsstring) :
  Forall (λ b, -128 <= b <= 127) (computeDigest text) ->
  createMD5HashKey computeDigest text
  = concat ((λ b, strip_leading_zero (hex_padded (unsigned_byte b)))
              <$> computeDigest text)
  ∧ (Forall (λ b, 16 <= unsigned_byte b) (computeDigest text) ->
     createMD5HashKey computeDigest text
     = concat ((λ b, hex_padded (unsigned_byte b)) <$> computeDigest text)
     ∧ length (createMD5HashKey computeDigest text)
       = (2 * length (computeDigest text))%nat).
Proof.
  intros Hbytes. rewrite createMD5HashKey_unfold by exact Hbytes. split.
  - f_equal. apply Forall_fmap_ext_1.
    eapply Forall_impl; [exact Hbytes |].
    intros b Hb. cbv beta in Hb |- *.
    apply hex_unpadded_strips, unsigned_byte_range, Hb.
  - intros Hbig.
    assert (Hsame : (λ b, hex_unpadded (unsigned_byte b)) <$> computeDigest text
                    = (λ b, hex_padded (unsigned_byte b)) <$> computeDigest text).
    { apply Forall_fmap_ext_1. eapply Forall_impl; [exact Hbig |].
      intros b Hb. cbv beta in Hb |- *. unfold hex_unpadded, hex_padded.
      destruct (Z.ltb_spec (unsigned_byte b) 16); [lia | reflexivity]. }
    rewrite Hsame. split; [reflexivity |].
    clear. induction (computeDigest text) as [| b bytes IH]; [reflexivity |].
    rewrite fmap_cons. cbn [concat]. rewrite length_app, IH.
    unfold hex_padded. cbn [length]. lia.
Qed.

Lemma createMD5HashKey_standard_witness :
  Forall (λ b, -128 <= b <= 127)
    (computeDigest_MD5_UTF_8 (lit "message digest"))
  ∧ Forall (λ b, 16 <= unsigned_byte b)
      (computeDigest_MD5_UTF_8 (lit "message digest"))
  ∧ createMD5HashKey computeDigest_MD5_UTF_8 (lit "message digest")
    = lit "f96b697d7cb7938d525a2f31aaf161d0".
Proof.
  assert (Hbytes : Forall (λ b, -128 <= b <= 127)
                     (computeDigest_MD5_UTF_8 (lit "message digest")))
    by (vm_compute; repeat (apply Forall_cons_2; [split; discriminate |]);
        apply Forall_nil_2).
  assert (Hbig : Forall (λ b, 16 <= unsigned_byte b)
                   (computeDigest_MD5_UTF_8 (lit "message digest")))
    by (vm_compute; repeat (apply Forall_cons_2; [discriminate |]);
        apply Forall_nil_2).
  split; [exact Hbytes |]. split; [exact Hbig |].
  rewrite (proj1 (proj2 (createMD5HashKey_standard computeDigest_MD5_UTF_8
                           (lit "message digest") Hbytes) Hbig)).
  vm_compute. reflexivity.
Defined.

(** ** SpreadsheetLib *)

(** X18: a wrapper that [openSheet] returns never holds null: it holds
    the sheet that the lookup by name found. *)
Theorem openSheet_wrapper_holds_sheet {Sheet : Type}
    (ss : Spreadsheet Sheet) (sheetName : jsstring)
    (wrapper : SheetRef Sheet) :
  openSheet ss sheetName = Normal wrapper ->
  ∃ found,
    sheet wrapper = Some found ∧ getSheetByName ss sheetName = Some found.
Proof.
  unfold openSheet.
  destruct (getSheetByName ss sheetName) as [found |] eqn:Hlookup;
    cbv zeta; cbn [TypeGuard.isNull]; intros Hrun.
  - exists found. split; [| reflexivity]. injection Hrun as <-. reflexivity.
  - discriminate Hrun.
Qed.

Lemma openSheet_wrapper_holds_sheet_witness :
  let ss := {| getSheetByName := λ name,
                 if decide (name = lit "log") then Some 7%nat else None;
               getId := lit "1AbC" |} in
  openSheet ss (lit "log") = Normal {| sheet := Some 7%nat |}
  ∧ ∃ found,
      sheet {| sheet := Some 7%nat |} = Some found
      ∧ getSheetByName ss (lit "log") = Some found.
Proof.
  intros ss.
  assert (Hrun : openSheet ss (lit "log") = Normal {| sheet := Some 7%nat |})
    by reflexivity.
  split; [exact Hrun |].
  exact (openSheet_wrapper_holds_sheet ss (lit "log") _ Hrun).
Defined.
